(** * PipelineExecutor: the scheduler's data model and task queue

    A shallow embedding of [dbms/src/Processors/Executors/PipelineExecutor.h].
    Machine counters ([size_t], [UInt64]) are integers reduced modulo [2^64];
    raw pointers are addresses into explicit stores; a [std::vector] indexed
    out of range and a dereference of a pointer that names no object are
    undefined behaviour and are reported as [Undefined]. *)

From Stdlib Require Import ZArith Lia.
From stdpp Require Import base numbers option list gmap strings.

Local Open Scope Z_scope.

(** ** Machine integers *)

(** [size_t] and [UInt64] arithmetic wraps modulo [2^64]. *)
Definition size_t_modulus : Z := 2 ^ 64.

Definition wrap64 (z : Z) : Z := z mod size_t_modulus.

(** ** Exceptions and results *)

(** Modelled from the spec: the error codes, which are declared outside the
    header.  [LOGICAL_ERROR] is the one the header throws; the two others
    are classes of the error taxonomy: the structural error of graph
    construction and the fault a processor raises. *)
Module ErrorCodes.
Inductive t :=
| LOGICAL_ERROR
| STRUCTURAL_ERROR
| PROCESSOR_FAULT (tag : N).
End ErrorCodes.

(** [Exception(message, code)]. *)
Record Exception := { message : string; code : ErrorCodes.t }.

(** Outcome of a member function: normal return, a thrown exception, or
    undefined behaviour. *)
Inductive result (A : Type) : Type :=
| Ok (a : A)
| Throw (e : Exception)
| Undefined.

Arguments Ok {A} a.
Arguments Throw {A} e.
Arguments Undefined {A}.

Global Instance result_ret : MRet result := λ A a, Ok a.

Global Instance result_bind : MBind result := λ A B k m,
  match m with
  | Ok a => k a
  | Throw e => Throw e
  | Undefined => Undefined
  end.

(** Addresses. A nullable pointer is an [option ptr]; [None] is [nullptr]. *)
Abbreviation ptr := N.

(** ** ExecutionState *)

(** The closure stored in [std::function<void()> job]. *)
Inductive Job := Closure (id : N).

Module ExecutionState.
Record t := mk {
  exception : option Exception;   (* std::exception_ptr *)
  job : option Job;               (* std::function<void()>, possibly empty *)
  processor : option ptr;         (* IProcessor * *)
  processors_id : Z;
  has_quota : bool;
  num_executed_jobs : Z;
  execution_time_ns : Z;
  preparation_time_ns : Z
}.

(** The default member initialisers. *)
Definition default : t := mk None None None 0 false 0 0 0.
End ExecutionState.

(** The store of [ExecutionState] objects, by address. *)
Abbreviation StateHeap := (gmap ptr ExecutionState.t).

(** ** Processors and ports, as far as the header uses them *)

(** Modelled from the spec: [IProcessor] is declared in
    Processors/IProcessor.h.  The scheduler uses its [prepare] status, its
    resource-quota flag and, for every port, the peer the port is connected
    to (a processor and the number of the peer's port), if any. *)
Module IProcessor.
Inductive Status :=
| NeedData | PortFull | Finished | Ready | Async | ExpandPipeline.

Record Port := { peer : option (ptr * nat) }.

Record t := mk {
  hasQuota : bool;
  inputs : list Port;
  outputs : list Port
}.
End IProcessor.

(** Modelled from the spec: [Port::UpdateInfo] is declared in
    Processors/Port.h: a version counter (with the version last seen) and the
    two pointers the [Edge] constructor assigns. *)
Module UpdateInfo.
Record t := mk {
  update_list : option ptr;
  id : option ptr;
  version : Z;
  prev_version : Z
}.

Definition default : t := mk None None 0 0.
End UpdateInfo.

(** ** Edge *)

Module Edge.
Record t := mk {
  to : Z;
  backward : bool;
  input_port_number : Z;
  output_port_number : Z;
  update_info : UpdateInfo.t
}.

(** The constructor; [this] is the address of the edge being built. *)
Definition new (this : ptr) (to_ : Z) (backward_ : bool)
    (input_port_number_ output_port_number_ : Z)
    (update_list : option ptr) : t :=
  mk to_ backward_ input_port_number_ output_port_number_
     (UpdateInfo.mk update_list (Some this)
        (UpdateInfo.version UpdateInfo.default)
        (UpdateInfo.prev_version UpdateInfo.default)).
End Edge.

(** [using Edges = std::list<Edge>]. *)
Abbreviation Edges := (list Edge.t).

(** ** ExecStatus *)

Module ExecStatus.
Inductive t := Idle | Preparing | Executing | Finished | Async.
End ExecStatus.

(** ** The world a constructor runs in *)

(** What a run can observe of the calls made on processors and of threads. *)
Inductive Event :=
| CallHasQuota (processor : ptr)
| ThreadSpawned (thread_num : nat)
| ThreadJoined (thread_num : nat)
| FaultCaptured (thread_num : nat) (state : ptr) (e : Exception)
| FaultRethrown (e : Exception).

Module World.
Record t := mk {
  processors : gmap ptr IProcessor.t;   (* the processor objects *)
  states : StateHeap;                   (* the ExecutionState objects *)
  trace : list Event
}.
End World.

(** Outcome of code that also changes the world: a return or a throw, each
    with the world it leaves, or undefined behaviour. *)
Inductive outcome (A : Type) : Type :=
| Done (a : A) (w : World.t)
| Failed (e : Exception) (w : World.t)
| Stuck.

Arguments Done {A} a w.
Arguments Failed {A} e w.
Arguments Stuck {A}.

Definition and_then {A B : Type} (o : outcome A)
    (k : A → World.t → outcome B) : outcome B :=
  match o with
  | Done a w => k a w
  | Failed e w => Failed e w
  | Stuck => Stuck
  end.

(** ** Node *)

Module Node.
Record t := mk {
  processor : option ptr;
  directEdges : Edges;
  backEdges : Edges;
  status : ExecStatus.t;
  status_mutex_locked : bool;               (* std::mutex status_mutex *)
  post_updated_input_ports : list ptr;      (* std::vector<void *> *)
  post_updated_output_ports : list ptr;
  last_processor_status : IProcessor.Status;
  execution_state : option ptr;             (* std::unique_ptr *)
  updated_input_ports : list Z;             (* IProcessor::PortNumbers *)
  updated_output_ports : list Z
}.

(** [Node(IProcessor * processor_, UInt64 processor_id)].  The members
    without an initialiser in the list take their defaults; the body
    allocates the execution state, fills it in and asks the processor for
    its quota flag. *)
Definition new (w : World.t) (processor_ : option ptr) (processor_id : Z)
  : outcome t :=
  let a := fresh (dom (World.states w)) in
  let st := ExecutionState.default in
  let st := ExecutionState.mk
              (ExecutionState.exception st) (ExecutionState.job st)
              processor_ processor_id (ExecutionState.has_quota st)
              (ExecutionState.num_executed_jobs st)
              (ExecutionState.execution_time_ns st)
              (ExecutionState.preparation_time_ns st) in
  match processor_ with
  | None => Stuck
  | Some p =>
      match World.processors w !! p with
      | None => Stuck
      | Some obj =>
          let st := ExecutionState.mk
                      (ExecutionState.exception st) (ExecutionState.job st)
                      (ExecutionState.processor st)
                      (ExecutionState.processors_id st)
                      (IProcessor.hasQuota obj)
                      (ExecutionState.num_executed_jobs st)
                      (ExecutionState.execution_time_ns st)
                      (ExecutionState.preparation_time_ns st) in
          Done (mk processor_ [] [] ExecStatus.Idle false [] []
                   IProcessor.NeedData (Some a) [] [])
               (World.mk (World.processors w)
                         (<[a := st]> (World.states w))
                         (World.trace w ++ [CallHasQuota p]))
      end
  end.

(** [Node(Node && other) noexcept]: the constructed node and what is left
    of [other].  Only [processor], [status] and [execution_state] are in
    the initialiser list. *)
Definition move (other : t) : t * t :=
  (mk (processor other) [] [] (status other) false [] []
      IProcessor.NeedData (execution_state other) [] [],
   mk (processor other) (directEdges other) (backEdges other)
      (status other) (status_mutex_locked other)
      (post_updated_input_ports other) (post_updated_output_ports other)
      (last_processor_status other) None
      (updated_input_ports other) (updated_output_ports other)).
End Node.

(** ** Nodes *)

(** [using Nodes = std::vector<Node>]: the elements and the capacity of the
    storage that holds them.  Growing a full vector allocates new storage and
    move-constructs every element into it ([Node]'s move constructor is
    [noexcept]); the new capacity doubles, as libstdc++ does. *)
Module Nodes.
Record t := mk { data : list Node.t; capacity : nat }.

Definition empty : t := mk [] 0.

Definition size (v : t) : nat := length (data v).

Definition relocate (v : t) : t :=
  mk ((λ n, (Node.move n).1) <$> data v)
     (size v + Nat.max (size v) 1).

(** [graph.emplace_back(processor, processor_id)]. *)
Definition emplace_back (w : World.t) (v : t)
    (processor_ : option ptr) (processor_id : Z) : outcome t :=
  and_then (Node.new w processor_ processor_id) (λ n w',
    let v' :=
      if bool_decide (size v < capacity v)%nat then v else relocate v in
    Done (mk (data v' ++ [n]) (capacity v')) w').
End Nodes.

(** ** TaskQueue *)

Module TaskQueue.

(** [std::queue<ExecutionState *>]: the head of the list is [front()],
    [push] appends at the back. *)
Abbreviation Queue := (list ptr).

Record t := mk {
  queues : list Queue;
  size_ : Z;
  quota_ : Z
}.

(** A default-constructed [TaskQueue]. *)
Definition fresh : t := mk [] 0 0.

(** [init]: [queues.resize(num_threads)]. *)
Definition init (q : t) (num_threads : nat) : t :=
  mk (resize num_threads [] (queues q)) (size_ q) (quota_ q).

(** [push(state, thread_num)]. *)
Definition push (h : StateHeap) (q : t) (state : ptr) (thread_num : nat)
  : result t :=
  match queues q !! thread_num with
  | None => Undefined
  | Some qu =>
      let queues' := <[thread_num := qu ++ [state]]> (queues q) in
      let size' := wrap64 (size_ q + 1) in
      match h !! state with
      | None => Undefined
      | Some st =>
          Ok (mk queues' size'
                (if ExecutionState.has_quota st
                 then wrap64 (quota_ q + 1) else quota_ q))
      end
  end.

(** The exception both [throw] statements of [getAnyThreadWithTasks] raise. *)
Definition is_empty_error : Exception :=
  {| message := "TaskQueue is empty."; code := ErrorCodes.LOGICAL_ERROR |}.

(** The [for] loop of [getAnyThreadWithTasks]; [i] counts the iterations
    that remain.  [from_thread] cannot wrap at [2^64]: it is incremented
    only after [queues[from_thread]] was read in range. *)
Fixpoint scan (qs : list Queue) (i : nat) (from_thread : nat) : result nat :=
  match i with
  | O => Throw is_empty_error
  | S i' =>
      match qs !! from_thread with
      | None => Undefined
      | Some [] =>
          let from_thread := S from_thread in
          scan qs i'
            (if bool_decide (length qs ≤ from_thread)%nat
             then O else from_thread)
      | Some (_ :: _) => Ok from_thread
      end
  end.

(** [getAnyThreadWithTasks(from_thread)]. *)
Definition getAnyThreadWithTasks (q : t) (from_thread : nat) : result nat :=
  if bool_decide (size_ q = 0)
  then Throw is_empty_error
  else scan (queues q) (length (queues q)) from_thread.

(** [pop(thread_num)]: the popped pointer and the queue afterwards. *)
Definition pop (h : StateHeap) (q : t) (thread_num : nat)
  : result (ptr * t) :=
  thread_with_tasks ← getAnyThreadWithTasks q thread_num;
  match queues q !! thread_with_tasks with
  | Some (state :: rest) =>
      let queues' := <[thread_with_tasks := rest]> (queues q) in
      let size' := wrap64 (size_ q - 1) in
      match h !! state with
      | None => Undefined
      | Some st =>
          Ok (state,
              mk queues' size'
                (if ExecutionState.has_quota st
                 then wrap64 (quota_ q + 1) else quota_ q))
      end
  | _ => Undefined
  end.

Definition size (q : t) : Z := size_ q.
Definition empty (q : t) : bool := bool_decide (size_ q = 0).
Definition quota (q : t) : Z := quota_ q.

(** *** Sequences of calls *)

(** A call made on the queue. *)
Inductive op :=
| Push (state : ptr) (thread_num : nat)
| Pop (thread_num : nat).

(** What a call did: the per-thread queue it touched and the task. *)
Inductive event :=
| Pushed (thread : nat) (state : ptr)
| Popped (thread : nat) (state : ptr).

(** One call and its event.  For a pop the event names the queue the task
    came from, which is the one [getAnyThreadWithTasks] returns inside
    [pop]. *)
Definition step (h : StateHeap) (q : t) (o : op) : result (t * event) :=
  match o with
  | Push state thread_num =>
      q' ← push h q state thread_num;
      Ok (q', Pushed thread_num state)
  | Pop thread_num =>
      thread_with_tasks ← getAnyThreadWithTasks q thread_num;
      '(state, q') ← pop h q thread_num;
      Ok (q', Popped thread_with_tasks state)
  end.

(** Runs the calls in order; stops at the first that does not return. *)
Fixpoint run (h : StateHeap) (q : t) (ops : list op)
  : result (t * list event) :=
  match ops with
  | [] => Ok (q, [])
  | o :: ops' =>
      '(q', e) ← step h q o;
      '(q'', es) ← run h q' ops';
      Ok (q'', e :: es)
  end.

(** *** Quantities the counters are meant to track *)

(** The number of tasks held in all per-thread queues. *)
Definition total_tasks (q : t) : nat := length (concat (queues q)).

Definition is_quota_bearing (h : StateHeap) (state : ptr) : bool :=
  match h !! state with
  | Some st => ExecutionState.has_quota st
  | None => false
  end.

(** The number of queued tasks whose [has_quota] flag is set. *)
Definition quota_bearing_tasks (h : StateHeap) (q : t) : nat :=
  length (filter (λ state, is_quota_bearing h state = true)
            (concat (queues q))).

(** The size counter agrees with the contents of the queues. *)
Definition consistent (q : t) : Prop := size_ q = Z.of_nat (total_tasks q).

(** Every queued pointer names an execution state. *)
Definition valid (h : StateHeap) (q : t) : Prop :=
  Forall (λ state, is_Some (h !! state)) (concat (queues q)).

(** The queue of one thread, front first (empty when out of range). *)
Definition queue_at (q : t) (thread : nat) : Queue :=
  default [] (queues q !! thread).

(** The tasks pushed to, and popped from, the queue of one thread. *)
Definition pushed_to (thread : nat) (es : list event) : list ptr :=
  omap (λ e, match e with
             | Pushed t state =>
                 if bool_decide (t = thread) then Some state else None
             | Popped _ _ => None
             end) es.

Definition popped_from (thread : nat) (es : list event) : list ptr :=
  omap (λ e, match e with
             | Popped t state =>
                 if bool_decide (t = thread) then Some state else None
             | Pushed _ _ => None
             end) es.

End TaskQueue.

(** ** The executor *)

Module ExpandPipelineTask.
Record t := mk {
  node_to_expand : option ptr;
  stack : option ptr;
  num_waiting_processing_threads : Z
}.
End ExpandPipelineTask.

Module ExecutorContext.
Record t := mk {
  task_list : list ExpandPipelineTask.t;
  wake_flag : bool
}.

Definition default : t := mk [] false.
End ExecutorContext.

(** Modelled from the spec: [ThreadsQueue] is declared in
    Processors/Executors/ThreadsQueue.h: the registry of idle worker threads,
    here the numbers of the threads that are parked. *)
Abbreviation ThreadsQueue := (list nat).

(** The addresses edges record: where an edge lives and where the vector of
    updated ports of a node lives.  They are the allocator's choice. *)
Record Layout := {
  edge_at : nat → bool → nat → ptr;
  update_list_at : nat → bool → ptr
}.

Module PipelineExecutor.

(** The data members; locks and the logger hold no data of the model. *)
Record t := mk {
  processors : list ptr;
  graph : Nodes.t;
  task_queue : TaskQueue.t;
  threads_queue : ThreadsQueue;
  cancelled : bool;
  finished : bool;
  num_processing_executors : Z;
  expand_pipeline_task : option ptr;
  executor_contexts : list ExecutorContext.t;
  processors_map : gmap ptr Z
}.

(** *** Graph construction *)

(** Modelled from the spec: the structural error for a port without a
    connected peer. *)
Definition port_not_connected : Exception :=
  {| message := "Port is not connected.";
     code := ErrorCodes.STRUCTURAL_ERROR |}.

(** Modelled from the spec: the error for a peer outside the processor
    set. *)
Definition unknown_peer : Exception :=
  {| message := "Peer processor is not in the processor set.";
     code := ErrorCodes.STRUCTURAL_ERROR |}.

(** Modelled from the spec: the first half of [buildGraph], whose body is
    in PipelineExecutor.cpp: for every processor, one [Node] is created and
    indexed by processor identity. *)
Fixpoint create_nodes (w : World.t) (graph : Nodes.t) (map : gmap ptr Z)
    (processors : list ptr) : outcome (Nodes.t * gmap ptr Z) :=
  match processors with
  | [] => Done (graph, map) w
  | p :: rest =>
      let processor_id := Z.of_nat (Nodes.size graph) in
      and_then (Nodes.emplace_back w graph (Some p) processor_id)
        (λ graph' w',
           create_nodes w' graph' (<[p := processor_id]> map) rest)
  end.

(** Modelled from the spec: the edges of the ports of one side of a node
    (the body of [addEdges] is in PipelineExecutor.cpp).  Each port resolves
    its connected peer and gets an edge to the peer's node with a fresh
    update info; it fails if the port has no peer or the peer is not
    indexed.  An input port gives a backward edge, an output port a forward
    one. *)
Fixpoint add_port_edges (l : Layout) (map : gmap ptr Z) (node : nat)
    (backward : bool) (ports : list IProcessor.Port) (number : nat)
    (edges : Edges) : result Edges :=
  match ports with
  | [] => Ok edges
  | port :: rest =>
      match IProcessor.peer port with
      | None => Throw port_not_connected
      | Some (p, peer_number) =>
          match map !! p with
          | None => Throw unknown_peer
          | Some to_ =>
              let input_port_number :=
                if backward then number else peer_number in
              let output_port_number :=
                if backward then peer_number else number in
              let edge :=
                Edge.new (edge_at l node backward number) to_ backward
                  (Z.of_nat input_port_number) (Z.of_nat output_port_number)
                  (Some (update_list_at l node backward)) in
              add_port_edges l map node backward rest (S number)
                (edges ++ [edge])
          end
      end
  end.

(** Modelled from the spec: [addEdges(node)]. *)
Definition addEdges (w : World.t) (l : Layout) (map : gmap ptr Z)
    (node : nat) (n : Node.t) : result Node.t :=
  match Node.processor n ≫= (λ p, World.processors w !! p) with
  | None => Undefined
  | Some obj =>
      backEdges ← add_port_edges l map node true (IProcessor.inputs obj) 0
                    (Node.backEdges n);
      directEdges ← add_port_edges l map node false (IProcessor.outputs obj) 0
                      (Node.directEdges n);
      Ok (Node.mk (Node.processor n) directEdges backEdges (Node.status n)
            (Node.status_mutex_locked n)
            (Node.post_updated_input_ports n)
            (Node.post_updated_output_ports n)
            (Node.last_processor_status n) (Node.execution_state n)
            (Node.updated_input_ports n) (Node.updated_output_ports n))
  end.

(** Modelled from the spec: [addEdges] for the nodes from [node] on. *)
Fixpoint add_all_edges (w : World.t) (l : Layout) (map : gmap ptr Z)
    (node : nat) (nodes : list Node.t) : result (list Node.t) :=
  match nodes with
  | [] => Ok []
  | n :: rest =>
      n' ← addEdges w l map node n;
      rest' ← add_all_edges w l map (S node) rest;
      Ok (n' :: rest')
  end.

(** Modelled from the spec: [buildGraph], nodes first, then edges. *)
Definition buildGraph (w : World.t) (l : Layout) (processors : list ptr)
  : outcome (Nodes.t * gmap ptr Z) :=
  and_then (create_nodes w Nodes.empty ∅ processors) (λ '(graph, map) w',
    match add_all_edges w' l map 0 (Nodes.data graph) with
    | Ok nodes => Done (Nodes.mk nodes (Nodes.capacity graph), map) w'
    | Throw e => Failed e w'
    | Undefined => Stuck
    end).

(** Modelled from the spec: the constructor, whose body is in
    PipelineExecutor.cpp; by the header it builds the graph and throws if
    the graph is not correct.  The other members start from their
    defaults. *)
Definition new (w : World.t) (l : Layout) (processors_ : list ptr)
  : outcome t :=
  and_then (buildGraph w l processors_) (λ '(graph, map) w',
    Done (mk processors_ graph TaskQueue.fresh [] false false 0 None []
            map) w').

(** A port whose peer is connected and belongs to the processor set. *)
Definition port_resolved (processors : list ptr) (port : IProcessor.Port)
  : Prop :=
  ∃ p number, IProcessor.peer port = Some (p, number) ∧ p ∈ processors.

(** A port without a connected peer, or whose peer is outside the processor
    set. *)
Definition port_dangling (processors : list ptr) (port : IProcessor.Port)
  : Prop :=
  IProcessor.peer port = None
  ∨ ∃ p number, IProcessor.peer port = Some (p, number) ∧ p ∉ processors.

(** Every processor of the set is an object all of whose ports are
    resolved. *)
Definition fully_connected (w : World.t) (processors : list ptr) : Prop :=
  Forall (λ p, ∃ obj,
            World.processors w !! p = Some obj
            ∧ Forall (port_resolved processors)
                (IProcessor.inputs obj ++ IProcessor.outputs obj))
    processors.

(** Every node of the graph owns an execution state. *)
Definition states_allocated (w : World.t) (nodes : list Node.t) : Prop :=
  Forall (λ n, ∃ a, Node.execution_state n = Some a
                    ∧ is_Some (World.states w !! a)) nodes.

End PipelineExecutor.

(** ** Sample inputs *)

Module Samples.
(** Two execution states, one of a processor with a quota and one without. *)
Definition with_quota : ExecutionState.t :=
  ExecutionState.mk None None (Some 3%N) 0 true 0 0 0.

Definition without_quota : ExecutionState.t :=
  ExecutionState.mk None None (Some 4%N) 1 false 0 0 0.

Definition heap : StateHeap := {[ 7%N := with_quota; 8%N := without_quota ]}.

(** Three threads; only the second has a backlog. *)
Definition backlog : TaskQueue.t :=
  TaskQueue.mk [[]; [8%N; 7%N]; []] 2 1.

(** Two threads: a push to each, then thread 1 pops. *)
Definition calls : list TaskQueue.op :=
  [TaskQueue.Push 7%N 0; TaskQueue.Push 8%N 1; TaskQueue.Pop 1].

Definition after_calls : TaskQueue.t := TaskQueue.mk [[7%N]; []] 1 1.

Definition events_of_calls : list TaskQueue.event :=
  [TaskQueue.Pushed 0 7%N; TaskQueue.Pushed 1 8%N; TaskQueue.Popped 1 8%N].

(** One thread: a quota-bearing task is pushed and popped again. *)
Definition push_then_pop : list TaskQueue.op :=
  [TaskQueue.Push 7%N 0; TaskQueue.Pop 0].

(** Two processors, each with one port, connected to one another: a source
    with a quota and a sink without. *)
Definition source : IProcessor.t :=
  IProcessor.mk true [] [{| IProcessor.peer := Some (4%N, O) |}].

Definition sink : IProcessor.t :=
  IProcessor.mk false [{| IProcessor.peer := Some (3%N, O) |}] [].

Definition world : World.t :=
  World.mk {[ 3%N := source; 4%N := sink ]} ∅ [].

(** The world after the node of the source was built, at address 0. *)
Definition source_state : ExecutionState.t :=
  ExecutionState.mk None None (Some 3%N) 0 true 0 0 0.

Definition world_with_source : World.t :=
  World.mk (World.processors world) {[ 0%N := source_state ]}
    [CallHasQuota 3%N].

(** The node of the source with its forward edge to node 1, in a vector
    that is full. *)
Definition source_edge : Edge.t :=
  Edge.new 100%N 1 false 0 0 (Some 200%N).

Definition connected_node : Node.t :=
  Node.mk (Some 3%N) [source_edge] [] ExecStatus.Idle false [] [201%N]
    IProcessor.PortFull (Some 0%N) [] [0].

Definition full_graph : Nodes.t := Nodes.mk [connected_node] 1.

(** Addresses for the edges and the update lists of a graph. *)
Definition layout : Layout :=
  {| edge_at := λ node backward number,
       (1000 + 100 * N.of_nat node + (if backward then 50 else 0)
        + N.of_nat number)%N;
     update_list_at := λ node backward,
       (2000 + 2 * N.of_nat node + (if backward then 1 else 0))%N |}.
End Samples.

(** ** Histories of the task queue and growth of the node collection *)

Module History.

Definition state_of (e : TaskQueue.event) : ptr :=
  match e with
  | TaskQueue.Pushed _ state => state
  | TaskQueue.Popped _ state => state
  end.

(** All tasks pushed, and all tasks popped, in the order of the calls. *)
Definition pushed (es : list TaskQueue.event) : list ptr :=
  omap (λ e, match e with
             | TaskQueue.Pushed _ state => Some state
             | TaskQueue.Popped _ _ => None
             end) es.

Definition popped (es : list TaskQueue.event) : list ptr :=
  omap (λ e, match e with
             | TaskQueue.Popped _ state => Some state
             | TaskQueue.Pushed _ _ => None
             end) es.

(** The number of pops that returned a quota-bearing task. *)
Definition quota_bearing_popped (h : StateHeap) (es : list TaskQueue.event)
  : nat :=
  length (filter (λ state, TaskQueue.is_quota_bearing h state = true)
            (popped es)).

(** The queued tasks in the order a consumer at [thread_num] meets them: the
    queue of [thread_num] front to back, then the queue of the next thread,
    wrapping around. *)
Definition round_robin_order (q : TaskQueue.t) (thread_num : nat) : list ptr :=
  concat (rotate thread_num (TaskQueue.queues q)).

(** Two pushes, one after the other. *)
Definition push_push (h : StateHeap) (q : TaskQueue.t)
    (state1 : ptr) (thread1 : nat) (state2 : ptr) (thread2 : nat)
  : result TaskQueue.t :=
  q' ← TaskQueue.push h q state1 thread1;
  TaskQueue.push h q' state2 thread2.
End History.

Module Growth.
(** [graph.emplace_back(processor, id)] for each pair, in order. *)
Fixpoint emplace_back_all (w : World.t) (v : Nodes.t) (args : list (ptr * Z))
  : outcome Nodes.t :=
  match args with
  | [] => Done v w
  | (p, processor_id) :: rest =>
      and_then (Nodes.emplace_back w v (Some p) processor_id)
        (λ v' w', emplace_back_all w' v' rest)
  end.

(** Every node owns an execution state that exists, and no two nodes own
    the same one. *)
Definition owns_distinct_states (w : World.t) (v : Nodes.t) : Prop :=
  NoDup (Node.execution_state <$> Nodes.data v)
  ∧ PipelineExecutor.states_allocated w (Nodes.data v).
End Growth.

Module Scenarios.
(** Three execution states and three threads, with tasks on the queues of
    threads 0 and 2. *)
Definition heap : StateHeap :=
  {[ 7%N := Samples.with_quota; 8%N := Samples.without_quota;
     9%N := Samples.without_quota ]}.

Definition spread : TaskQueue.t :=
  TaskQueue.mk [[7%N]; []; [8%N; 9%N]] 3 1.

(** The backlog of the samples after [init(1)]: its tasks are gone, its
    counters are not. *)
Definition shrunk : TaskQueue.t := TaskQueue.init Samples.backlog 1.

(** A third processor, without ports, for a collection that grows twice. *)
Definition lone : IProcessor.t := IProcessor.mk true [] [].

Definition world : World.t :=
  World.mk {[ 3%N := Samples.source; 4%N := Samples.sink; 5%N := lone ]}
    {[ 0%N := Samples.source_state ]} [CallHasQuota 3%N].

Definition additions : list (ptr * Z) := [(4%N, 1); (5%N, 2)].
End Scenarios.

(** * Properties *)

Section task_queue_lemmas.

Implicit Types (qs : list (list ptr)) (q : TaskQueue.t) (h : StateHeap).

Local Abbreviation queues := TaskQueue.queues.
Local Abbreviation size_ := TaskQueue.size_.
Local Abbreviation quota_ := TaskQueue.quota_.

Lemma length_concat_insert qs (t : nat) (old new : list ptr) :
  qs !! t = Some old →
  (length (concat (<[t := new]> qs)) + length old
   = length (concat qs) + length new)%nat.
Proof.
  revert t. induction qs as [|x qs IH]; intros [|t] Hl; simplify_eq/=.
  - rewrite !length_app. lia.
  - rewrite !length_app. specialize (IH _ Hl). lia.
Qed.

Lemma wrap64_succ z : wrap64 (wrap64 z + 1) = wrap64 (z + 1).
Proof. unfold wrap64. apply Zplus_mod_idemp_l. Qed.

Lemma wrap64_pred z : wrap64 (wrap64 z - 1) = wrap64 (z - 1).
Proof. unfold wrap64. apply Zminus_mod_idemp_l. Qed.

Lemma wrap64_small z : 0 ≤ z < size_t_modulus → wrap64 z = z.
Proof. intros. unfold wrap64. by apply Z.mod_small. Qed.

(** The successor of an index in round-robin order. *)
Lemma next_thread_mod (n from : nat) :
  (from < n)%nat →
  (if bool_decide (n ≤ S from)%nat then O else S from) = ((from + 1) mod n)%nat.
Proof.
  intros Hlt. case_bool_decide as Hc.
  - assert (S from = n) as <- by lia.
    replace (from + 1)%nat with (S from) by lia.
    by rewrite Nat.Div0.mod_same.
  - rewrite Nat.mod_small; lia.
Qed.

Lemma round_robin_shift (n from j : nat) :
  (((from + 1) mod n + j) mod n = (from + S j) mod n)%nat.
Proof.
  rewrite Nat.Div0.add_mod_idemp_l. f_equal. lia.
Qed.

(** What the loop of [getAnyThreadWithTasks] computes: either all of the
    [i] queues visited are empty and it falls through to the [throw], or it
    returns the first non-empty one in round-robin order. *)
Lemma scan_cases qs (i from : nat) :
  (from < length qs)%nat →
  (TaskQueue.scan qs i from = Throw TaskQueue.is_empty_error
   ∧ ∀ j, (j < i)%nat → qs !! ((from + j) mod length qs)%nat = Some [])
  ∨ (∃ k state rest,
       (k < i)%nat
       ∧ (∀ j, (j < k)%nat → qs !! ((from + j) mod length qs)%nat = Some [])
       ∧ qs !! ((from + k) mod length qs)%nat = Some (state :: rest)
       ∧ TaskQueue.scan qs i from = Ok ((from + k) mod length qs)%nat).
Proof.
  revert from. induction i as [|i IH]; intros from Hlt.
  { left. split; [done | lia]. }
  simpl. destruct (lookup_lt_is_Some_2 qs from Hlt) as [qu Hqu].
  rewrite Hqu. destruct qu as [|state rest].
  - rewrite next_thread_mod by done.
    assert (Hnext : ((from + 1) mod length qs < length qs)%nat)
      by (apply Nat.mod_upper_bound; lia).
    destruct (IH _ Hnext) as [[-> Hall] | (k & s & r & Hk & Hall & Hhit & ->)].
    + left. split; [done |]. intros [|j] Hj.
      * rewrite Nat.add_0_r, Nat.mod_small by done. done.
      * rewrite <- (round_robin_shift (length qs) from j). apply Hall. lia.
    + right. exists (S k), s, r.
      rewrite <- (round_robin_shift (length qs) from k).
      split_and!; [lia | | done | done].
      intros [|j] Hj.
      * rewrite Nat.add_0_r, Nat.mod_small by done. done.
      * rewrite <- (round_robin_shift (length qs) from j). apply Hall. lia.
  - right. exists O, state, rest.
    rewrite Nat.add_0_r, Nat.mod_small by done.
    split_and!; [lia | lia | done | done].
Qed.

(** Every index is visited by a full round. *)
Lemma round_robin_covers (n from t : nat) :
  (from < n)%nat → (t < n)%nat →
  ∃ j, (j < n)%nat ∧ ((from + j) mod n)%nat = t.
Proof.
  intros Hf Ht. destruct (decide (from ≤ t)%nat).
  - exists (t - from)%nat. split; [lia |].
    replace (from + (t - from))%nat with t by lia. by apply Nat.mod_small.
  - exists (n - from + t)%nat. split; [lia |].
    replace (from + (n - from + t))%nat with (t + 1 * n)%nat by lia.
    rewrite Nat.Div0.mod_add. by apply Nat.mod_small.
Qed.

Lemma concat_all_empty qs :
  (∀ t, (t < length qs)%nat → qs !! t = Some []) → concat qs = [].
Proof.
  induction qs as [|x qs IH]; intros Hall; [done |].
  pose proof (Hall O ltac:(simpl; lia)) as H0. simplify_eq/=.
  apply IH. intros t Ht. apply (Hall (S t)). simpl. lia.
Qed.

Lemma getAnyThreadWithTasks_found q (from : nat) :
  (from < length (queues q))%nat →
  size_ q ≠ 0 →
  concat (queues q) ≠ [] →
  ∃ k state rest,
    (k < length (queues q))%nat
    ∧ (∀ j, (j < k)%nat →
         queues q !! ((from + j) mod length (queues q))%nat = Some [])
    ∧ queues q !! ((from + k) mod length (queues q))%nat
        = Some (state :: rest)
    ∧ TaskQueue.getAnyThreadWithTasks q from
        = Ok ((from + k) mod length (queues q))%nat.
Proof.
  intros Hfrom Hsize Hne. unfold TaskQueue.getAnyThreadWithTasks.
  rewrite bool_decide_eq_false_2 by done.
  destruct (scan_cases (queues q) (length (queues q)) from Hfrom)
    as [[_ Hall] | (k & state & rest & ? & ? & ? & ?)]; [| by eauto 10].
  destruct Hne. apply concat_all_empty. intros t Ht.
  destruct (round_robin_covers _ from t Hfrom Ht) as (j & Hj & <-).
  by apply Hall.
Qed.

(** Inversion of a returning [push]. *)
Lemma push_Ok h q state (thread_num : nat) q' :
  TaskQueue.push h q state thread_num = Ok q' →
  ∃ qu st,
    queues q !! thread_num = Some qu
    ∧ h !! state = Some st
    ∧ q' = TaskQueue.mk (<[thread_num := qu ++ [state]]> (queues q))
             (wrap64 (size_ q + 1))
             (if ExecutionState.has_quota st
              then wrap64 (quota_ q + 1) else quota_ q).
Proof.
  unfold TaskQueue.push. intros H.
  destruct (queues q !! thread_num) as [qu|]; [| done].
  destruct (h !! state) as [st|]; [| done].
  exists qu, st. by simplify_eq.
Qed.

(** Inversion of a returning [pop]. *)
Lemma pop_Ok h q (thread_num : nat) state q' :
  TaskQueue.pop h q thread_num = Ok (state, q') →
  ∃ src rest st,
    TaskQueue.getAnyThreadWithTasks q thread_num = Ok src
    ∧ queues q !! src = Some (state :: rest)
    ∧ h !! state = Some st
    ∧ q' = TaskQueue.mk (<[src := rest]> (queues q))
             (wrap64 (size_ q - 1))
             (if ExecutionState.has_quota st
              then wrap64 (quota_ q + 1) else quota_ q).
Proof.
  unfold TaskQueue.pop. intros H.
  destruct (TaskQueue.getAnyThreadWithTasks q thread_num) as [src| |];
    simpl in H; [| done..].
  destruct (queues q !! src) as [[|s rest]|] eqn:Hq; [done | | done].
  destruct (h !! s) as [st|] eqn:Hs; [| done].
  exists src, rest, st. by simplify_eq.
Qed.

(** [pop] when the queue to take from is known. *)
Lemma pop_from h q (thread_num src : nat) state rest st :
  TaskQueue.getAnyThreadWithTasks q thread_num = Ok src →
  queues q !! src = Some (state :: rest) →
  h !! state = Some st →
  TaskQueue.pop h q thread_num
  = Ok (state,
        TaskQueue.mk (<[src := rest]> (queues q)) (wrap64 (size_ q - 1))
          (if ExecutionState.has_quota st
           then wrap64 (quota_ q + 1) else quota_ q)).
Proof.
  intros Hsrc Hq Hs. unfold TaskQueue.pop. rewrite Hsrc. simpl.
  by rewrite Hq, Hs.
Qed.

Lemma elem_of_concat_lookup qs (t : nat) (qu : list ptr) state :
  qs !! t = Some qu → state ∈ qu → state ∈ concat qs.
Proof.
  revert t. induction qs as [|x qs IH]; intros [|t] Hq Hin; simplify_eq/=.
  - apply elem_of_app. by left.
  - apply elem_of_app. right. by eapply IH.
Qed.

Lemma consistent_nonempty q :
  TaskQueue.consistent q → (0 < TaskQueue.total_tasks q)%nat →
  size_ q ≠ 0 ∧ concat (queues q) ≠ [].
Proof.
  unfold TaskQueue.consistent, TaskQueue.total_tasks. intros -> Hpos.
  split; [lia |]. intros Heq. rewrite Heq in Hpos. simpl in Hpos. lia.
Qed.

Lemma elem_of_concat_insert qs (t : nat) (old new : list ptr) state :
  qs !! t = Some old →
  state ∈ concat (<[t := new]> qs) →
  state ∈ new ∨ state ∈ concat qs.
Proof.
  revert t. induction qs as [|x qs IH]; intros [|t] Hq Hin; simplify_eq/=.
  - apply elem_of_app in Hin as [?|?]; [by left |].
    right. apply elem_of_app. by right.
  - apply elem_of_app in Hin as [?|Hin].
    + right. apply elem_of_app. by left.
    + destruct (IH _ Hq Hin); [by left |].
      right. apply elem_of_app. by right.
Qed.

(** *** Invariants of a run *)

(** Inversion of a returning call: a push onto the queue of [thread_num], or
    a pop from the queue [getAnyThreadWithTasks] chose. *)
Lemma step_Ok h q o q' e :
  TaskQueue.step h q o = Ok (q', e) →
  (∃ state (thread_num : nat) qu,
      e = TaskQueue.Pushed thread_num state
      ∧ queues q !! thread_num = Some qu
      ∧ is_Some (h !! state)
      ∧ queues q' = <[thread_num := qu ++ [state]]> (queues q)
      ∧ size_ q' = wrap64 (size_ q + 1))
  ∨ (∃ state (src : nat) rest,
       e = TaskQueue.Popped src state
       ∧ queues q !! src = Some (state :: rest)
       ∧ queues q' = <[src := rest]> (queues q)
       ∧ size_ q' = wrap64 (size_ q - 1)).
Proof.
  intros Hstep. destruct o as [state thread_num | thread_num]; simpl in Hstep.
  - destruct (TaskQueue.push h q state thread_num) as [q1| |] eqn:Hpush;
      simpl in Hstep; simplify_eq.
    apply push_Ok in Hpush as (qu & st & Hq & Hst & ->).
    left. exists state, thread_num, qu. by split_and!.
  - destruct (TaskQueue.getAnyThreadWithTasks q thread_num) as [src| |] eqn:Hsrc;
      simpl in Hstep; [| done..].
    destruct (TaskQueue.pop h q thread_num) as [[s q1]| |] eqn:Hpop;
      simpl in Hstep; simplify_eq.
    apply pop_Ok in Hpop as (src' & rest & st & Hsrc' & Hq & _ & ->).
    assert (src' = src) as -> by congruence.
    right. by exists s, src, rest.
Qed.

(** One call keeps the size counter equal, modulo [2^64], to the number of
    queued tasks. *)
Lemma step_size h q o q' e :
  TaskQueue.step h q o = Ok (q', e) →
  size_ q = wrap64 (Z.of_nat (TaskQueue.total_tasks q)) →
  size_ q' = wrap64 (Z.of_nat (TaskQueue.total_tasks q')).
Proof.
  intros Hstep Hinv. unfold TaskQueue.total_tasks in *.
  destruct (step_Ok _ _ _ _ _ Hstep)
    as [(state & t & qu & _ & Hq & _ & -> & ->)
       | (state & src & rest & _ & Hq & -> & ->)].
  - pose proof (length_concat_insert _ _ _ (qu ++ [state]) Hq) as Hlen.
    rewrite length_app in Hlen. simpl in Hlen.
    rewrite Hinv, wrap64_succ. f_equal. lia.
  - pose proof (length_concat_insert _ _ _ rest Hq) as Hlen.
    simpl in Hlen. rewrite Hinv, wrap64_pred. f_equal. lia.
Qed.

Lemma step_valid h q o q' e :
  TaskQueue.step h q o = Ok (q', e) →
  TaskQueue.valid h q → TaskQueue.valid h q'.
Proof.
  intros Hstep Hinv. unfold TaskQueue.valid in *. rewrite Forall_forall in *.
  intros x Hx.
  destruct (step_Ok _ _ _ _ _ Hstep)
    as [(state & t & qu & _ & Hq & Hst & Hqs & _)
       | (state & src & rest & _ & Hq & Hqs & _)];
    rewrite Hqs in Hx;
    apply (elem_of_concat_insert _ _ _ _ _ Hq) in Hx as [Hx | Hx];
    try by apply Hinv.
  - apply elem_of_app in Hx as [Hx | Hx].
    + apply Hinv. by eapply elem_of_concat_lookup.
    + by apply list_elem_of_singleton in Hx as ->.
  - apply Hinv. eapply elem_of_concat_lookup; [done |].
    by apply elem_of_cons; right.
Qed.

(** One call, seen from the queue of thread [t]: a push to [t] appends at
    the back, a pop from [t] removes the front, anything else leaves the
    queue of [t] alone. *)
Lemma step_fifo h q o q' e (t : nat) :
  TaskQueue.step h q o = Ok (q', e) →
  TaskQueue.queue_at q t ++ TaskQueue.pushed_to t [e]
  = TaskQueue.popped_from t [e] ++ TaskQueue.queue_at q' t.
Proof.
  intros Hstep. unfold TaskQueue.queue_at.
  destruct (step_Ok _ _ _ _ _ Hstep)
    as [(state & t' & qu & -> & Hq & _ & -> & _)
       | (state & src & rest & -> & Hq & -> & _)];
    simpl; case_bool_decide as Ht.
  - subst t'. by rewrite Hq, list_lookup_insert_eq by by eapply lookup_lt_Some.
  - rewrite list_lookup_insert_ne by done. by rewrite app_nil_r.
  - subst src. rewrite Hq, list_lookup_insert_eq by by eapply lookup_lt_Some.
    by rewrite app_nil_r.
  - rewrite list_lookup_insert_ne by done. by rewrite app_nil_r.
Qed.

Lemma run_cons h q o ops q'' es' :
  TaskQueue.run h q (o :: ops) = Ok (q'', es') →
  ∃ q' e es,
    TaskQueue.step h q o = Ok (q', e)
    ∧ TaskQueue.run h q' ops = Ok (q'', es)
    ∧ es' = e :: es.
Proof.
  simpl. intros H.
  destruct (TaskQueue.step h q o) as [[q' e]| |]; simpl in H; [| done..].
  destruct (TaskQueue.run h q' ops) as [[q2 es]| |] eqn:Hrun;
    simpl in H; [| done..].
  simplify_eq. by exists q', e, es.
Qed.

Lemma run_size h ops : ∀ q q' es,
  TaskQueue.run h q ops = Ok (q', es) →
  size_ q = wrap64 (Z.of_nat (TaskQueue.total_tasks q)) →
  size_ q' = wrap64 (Z.of_nat (TaskQueue.total_tasks q')).
Proof.
  induction ops as [|o ops IH]; intros q q' es Hrun Hinv.
  - by simplify_eq/=.
  - apply run_cons in Hrun as (q1 & e & es1 & Hstep & Hrun & ->).
    eapply IH; [done |]. by eapply step_size.
Qed.

Lemma run_valid h ops : ∀ q q' es,
  TaskQueue.run h q ops = Ok (q', es) →
  TaskQueue.valid h q → TaskQueue.valid h q'.
Proof.
  induction ops as [|o ops IH]; intros q q' es Hrun Hinv.
  - by simplify_eq/=.
  - apply run_cons in Hrun as (q1 & e & es1 & Hstep & Hrun & ->).
    eapply IH; [done |]. by eapply step_valid.
Qed.

Lemma pushed_to_cons (t : nat) e es :
  TaskQueue.pushed_to t (e :: es)
  = TaskQueue.pushed_to t [e] ++ TaskQueue.pushed_to t es.
Proof. unfold TaskQueue.pushed_to. simpl. by destruct e; try case_bool_decide. Qed.

Lemma popped_from_cons (t : nat) e es :
  TaskQueue.popped_from t (e :: es)
  = TaskQueue.popped_from t [e] ++ TaskQueue.popped_from t es.
Proof. unfold TaskQueue.popped_from. simpl. by destruct e; try case_bool_decide. Qed.

Lemma run_fifo h ops (t : nat) : ∀ q q' es,
  TaskQueue.run h q ops = Ok (q', es) →
  TaskQueue.queue_at q t ++ TaskQueue.pushed_to t es
  = TaskQueue.popped_from t es ++ TaskQueue.queue_at q' t.
Proof.
  induction ops as [|o ops IH]; intros q q' es Hrun.
  - simplify_eq/=. by rewrite app_nil_r.
  - apply run_cons in Hrun as (q1 & e & es1 & Hstep & Hrun & ->).
    rewrite pushed_to_cons, popped_from_cons, app_assoc.
    rewrite (step_fifo _ _ _ _ _ t Hstep), <- !app_assoc.
    f_equal. by apply IH.
Qed.

(** A freshly initialised queue. *)
Lemma init_fresh_queues (n : nat) :
  queues (TaskQueue.init TaskQueue.fresh n) = replicate n [].
Proof. simpl. apply resize_nil. Qed.

Lemma init_fresh_total (n : nat) :
  TaskQueue.total_tasks (TaskQueue.init TaskQueue.fresh n) = O.
Proof.
  unfold TaskQueue.total_tasks. rewrite init_fresh_queues.
  induction n as [|n IH]; [done | by simpl].
Qed.

Lemma init_fresh_queue_at (n t : nat) :
  TaskQueue.queue_at (TaskQueue.init TaskQueue.fresh n) t = [].
Proof.
  unfold TaskQueue.queue_at. rewrite init_fresh_queues.
  destruct (replicate n [] !! t) as [x|] eqn:Hl; [| done].
  by apply lookup_replicate in Hl as [-> _].
Qed.

End task_queue_lemmas.

(** ** The task queue *)

Section task_queue.

Implicit Types (q : TaskQueue.t) (h : StateHeap).

Local Abbreviation queues := TaskQueue.queues.
Local Abbreviation size_ := TaskQueue.size_.
Local Abbreviation quota_ := TaskQueue.quota_.

(** [pop] on a consistent, non-empty queue: the queue it takes from and
    the state it leaves. *)
Lemma pop_first_nonempty h q (thread_num : nat) :
  (thread_num < length (queues q))%nat →
  TaskQueue.consistent q →
  (0 < TaskQueue.total_tasks q)%nat →
  TaskQueue.valid h q →
  ∃ k state rest st,
    (k < length (queues q))%nat
    ∧ (∀ j, (j < k)%nat →
         queues q !! ((thread_num + j) mod length (queues q))%nat = Some [])
    ∧ queues q !! ((thread_num + k) mod length (queues q))%nat
        = Some (state :: rest)
    ∧ h !! state = Some st
    ∧ TaskQueue.pop h q thread_num
      = Ok (state,
            TaskQueue.mk
              (<[((thread_num + k) mod length (queues q))%nat := rest]>
                 (queues q))
              (wrap64 (size_ q - 1))
              (if ExecutionState.has_quota st
               then wrap64 (quota_ q + 1) else quota_ q)).
Proof.
  intros Hthread Hcons Hpos Hvalid.
  destruct (consistent_nonempty q Hcons Hpos) as [Hsize Hne].
  destruct (getAnyThreadWithTasks_found q thread_num Hthread Hsize Hne)
    as (k & state & rest & Hk & Hbefore & Hhit & Hany).
  assert (Hst : is_Some (h !! state)).
  { unfold TaskQueue.valid in Hvalid. rewrite Forall_forall in Hvalid.
    apply Hvalid. eapply elem_of_concat_lookup; [done |].
    apply elem_of_cons. by left. }
  destruct Hst as [st Hst].
  exists k, state, rest, st. split_and!; [done.. |].
  by apply pop_from.
Qed.

(** The queues reached by pushes and pops are consistent and valid. *)
Lemma run_consistent h (n : nat) ops q es :
  TaskQueue.run h (TaskQueue.init TaskQueue.fresh n) ops = Ok (q, es) →
  Z.of_nat (TaskQueue.total_tasks q) < size_t_modulus →
  TaskQueue.consistent q ∧ TaskQueue.valid h q.
Proof.
  intros Hrun Hbound. split.
  - unfold TaskQueue.consistent. rewrite <- (wrap64_small (Z.of_nat _)) by lia.
    eapply run_size; [done |]. by rewrite init_fresh_total.
  - eapply run_valid; [done |]. unfold TaskQueue.valid.
    pose proof (init_fresh_total n) as H0. unfold TaskQueue.total_tasks in H0.
    apply nil_length_inv in H0. rewrite H0. constructor.
Qed.

(** C3: on a queue holding at least one task, [pop(thread_num)] visits the
    per-thread queues in the order [thread_num], [thread_num + 1], ...,
    wrapping around, and returns and removes the front task of the first
    non-empty queue it meets: the [k] queues before it are empty.  In
    particular, when the queue of [thread_num] itself is not empty, its own
    front task is returned. *)
Theorem pop_scans_round_robin h q (thread_num : nat) :
  (thread_num < length (queues q))%nat →
  TaskQueue.consistent q →
  (0 < TaskQueue.total_tasks q)%nat →
  TaskQueue.valid h q →
  (∃ k state rest q',
      (k < length (queues q))%nat
      ∧ (∀ j, (j < k)%nat →
           queues q !! ((thread_num + j) mod length (queues q))%nat = Some [])
      ∧ queues q !! ((thread_num + k) mod length (queues q))%nat
          = Some (state :: rest)
      ∧ TaskQueue.pop h q thread_num = Ok (state, q')
      ∧ queues q'
          = <[((thread_num + k) mod length (queues q))%nat := rest]> (queues q))
  ∧ (∀ state rest,
       queues q !! thread_num = Some (state :: rest) →
       ∃ q', TaskQueue.pop h q thread_num = Ok (state, q')
             ∧ queues q' = <[thread_num := rest]> (queues q)).
Proof.
  intros Hthread Hcons Hpos Hvalid.
  destruct (pop_first_nonempty h q thread_num Hthread Hcons Hpos Hvalid)
    as (k & state & rest & st & Hk & Hbefore & Hhit & Hst & Hpop).
  split.
  - eexists k, state, rest, _. by split_and!.
  - intros state0 rest0 Hown. destruct k as [|k].
    + rewrite Nat.add_0_r, Nat.mod_small in Hhit, Hpop by done.
      simplify_eq. by eexists.
    + specialize (Hbefore O ltac:(lia)).
      rewrite Nat.add_0_r, Nat.mod_small in Hbefore by done. congruence.
Qed.

(** C4: with the size counter consistent with the contents, [pop] throws
    exactly when the aggregate size is zero, and what it throws is the
    logical error "TaskQueue is empty.".  With a size above zero it returns a
    task without error: the task is the front of one of the queues, so it was
    queued and names an execution state; it is removed from that queue, one
    task fewer is queued, and the size counter is decremented. *)
Theorem pop_throws_iff_size_zero h q (thread_num : nat) :
  (thread_num < length (queues q))%nat →
  TaskQueue.consistent q →
  TaskQueue.valid h q →
  ((∃ e, TaskQueue.pop h q thread_num = Throw e) ↔ TaskQueue.size q = 0)
  ∧ (∀ e, TaskQueue.pop h q thread_num = Throw e →
          e = TaskQueue.is_empty_error
          ∧ code e = ErrorCodes.LOGICAL_ERROR)
  ∧ (0 < TaskQueue.size q →
     ∃ (t : nat) state rest q',
       TaskQueue.pop h q thread_num = Ok (state, q')
       ∧ queues q !! t = Some (state :: rest)
       ∧ state ∈ concat (queues q)
       ∧ is_Some (h !! state)
       ∧ queues q' = <[t := rest]> (queues q)
       ∧ S (TaskQueue.total_tasks q') = TaskQueue.total_tasks q
       ∧ TaskQueue.size q' = wrap64 (TaskQueue.size q - 1)).
Proof.
  intros Hthread Hcons Hvalid. unfold TaskQueue.size.
  destruct (decide (size_ q = 0)) as [Hz | Hnz].
  - assert (Hpop : TaskQueue.pop h q thread_num
                   = Throw TaskQueue.is_empty_error).
    { unfold TaskQueue.pop, TaskQueue.getAnyThreadWithTasks.
      by rewrite bool_decide_eq_true_2. }
    rewrite Hpop. split_and!.
    + split; [done | by eauto].
    + by intros e [= <-].
    + lia.
  - assert (Hpos : (0 < TaskQueue.total_tasks q)%nat).
    { unfold TaskQueue.consistent in Hcons. lia. }
    destruct (pop_first_nonempty h q thread_num Hthread Hcons Hpos Hvalid)
      as (k & state & rest & st & _ & _ & Hhit & Hst & Hpop).
    rewrite Hpop. split_and!.
    + split; [by intros [e ?] | done].
    + done.
    + intros _. eexists _, state, rest, _. split_and!; [done | done | | | | |].
      * eapply elem_of_concat_lookup; [done |]. apply elem_of_cons. by left.
      * by eexists.
      * done.
      * unfold TaskQueue.total_tasks. simpl.
        pose proof (length_concat_insert _ _ _ rest Hhit) as Hlen.
        simpl in Hlen. lia.
      * done.
Qed.

(** C5: after any sequence of pushes and successful pops on a freshly
    initialised queue, [size()] is the number of tasks in all per-thread
    queues and [empty()] holds exactly when there is none.  The counter is a
    [size_t]; the number of queued tasks is taken to fit in one. *)
Theorem size_counts_queued_tasks h (n : nat) ops q es :
  TaskQueue.run h (TaskQueue.init TaskQueue.fresh n) ops = Ok (q, es) →
  Z.of_nat (TaskQueue.total_tasks q) < size_t_modulus →
  TaskQueue.size q = Z.of_nat (TaskQueue.total_tasks q)
  ∧ (TaskQueue.empty q = true ↔ TaskQueue.total_tasks q = O).
Proof.
  intros Hrun Hbound.
  destruct (run_consistent h n ops q es Hrun Hbound) as [Hcons _].
  unfold TaskQueue.consistent in Hcons.
  unfold TaskQueue.size, TaskQueue.empty. split; [done |].
  rewrite bool_decide_eq_true. lia.
Qed.

(** C6: each per-thread queue is first-in first-out.  In any run from a
    freshly initialised queue, the tasks popped from the queue of a thread
    are, in order, a prefix of the tasks pushed to it, and the rest is what
    the queue still holds: the [k]-th task popped from a queue is the [k]-th
    task pushed to it.  And a task pushed onto an empty queue of a thread is
    the one a pop starting at that thread returns. *)
Theorem per_thread_queue_is_fifo h (n : nat) ops q es :
  TaskQueue.run h (TaskQueue.init TaskQueue.fresh n) ops = Ok (q, es) →
  (∀ thread : nat,
      TaskQueue.pushed_to thread es
      = TaskQueue.popped_from thread es ++ TaskQueue.queue_at q thread)
  ∧ (∀ (thread k : nat) state,
       TaskQueue.popped_from thread es !! k = Some state →
       TaskQueue.pushed_to thread es !! k = Some state)
  ∧ (∀ state (thread_num : nat),
       queues q !! thread_num = Some [] →
       is_Some (h !! state) →
       Z.of_nat (TaskQueue.total_tasks q) + 1 < size_t_modulus →
       ∃ q1 q2,
         TaskQueue.push h q state thread_num = Ok q1
         ∧ TaskQueue.pop h q1 thread_num = Ok (state, q2)).
Proof.
  intros Hrun.
  assert (Hprefix : ∀ thread : nat,
             TaskQueue.pushed_to thread es
             = TaskQueue.popped_from thread es ++ TaskQueue.queue_at q thread).
  { intros thread. rewrite <- (run_fifo h ops thread _ _ _ Hrun).
    by rewrite init_fresh_queue_at. }
  split_and!.
  - done.
  - intros thread k state Hk. rewrite Hprefix. by apply lookup_app_l_Some.
  - intros state thread_num Hq [st Hst] Hbound.
    assert (Hsize : size_ q = Z.of_nat (TaskQueue.total_tasks q)).
    { rewrite <- (wrap64_small (Z.of_nat _)) by lia.
      eapply run_size; [done |]. by rewrite init_fresh_total. }
    eexists _, _. split.
    { unfold TaskQueue.push. rewrite Hq, Hst. done. }
    apply lookup_lt_Some in Hq as Hlt.
    assert (Hfront : <[thread_num := [] ++ [state]]> (queues q) !! thread_num
                     = Some [state])
      by by rewrite list_lookup_insert_eq.
    eapply pop_from; [| exact Hfront | exact Hst].
    simpl in Hfront. unfold TaskQueue.getAnyThreadWithTasks. simpl.
    rewrite Hsize, wrap64_small by lia.
    rewrite bool_decide_eq_false_2 by lia.
    rewrite length_insert.
    destruct (length (queues q)) as [|n'] eqn:Hn; [lia |].
    simpl. by rewrite Hfront.
Qed.

(** What [push] does to the quota counter: it adds one for a quota-bearing
    task and leaves it alone otherwise. *)
Lemma push_quota h q state (thread_num : nat) q' :
  TaskQueue.push h q state thread_num = Ok q' →
  TaskQueue.quota q'
  = if TaskQueue.is_quota_bearing h state
    then wrap64 (TaskQueue.quota q + 1) else TaskQueue.quota q.
Proof.
  intros Hpush. apply push_Ok in Hpush as (qu & st & _ & Hst & ->).
  unfold TaskQueue.is_quota_bearing. by rewrite Hst.
Qed.

(** What [pop] does to the quota counter: it adds one for a quota-bearing
    task, as [push] does. *)
Lemma pop_quota h q (thread_num : nat) state q' :
  TaskQueue.pop h q thread_num = Ok (state, q') →
  TaskQueue.quota q'
  = if TaskQueue.is_quota_bearing h state
    then wrap64 (TaskQueue.quota q + 1) else TaskQueue.quota q.
Proof.
  intros Hpop. apply pop_Ok in Hpop as (src & rest & st & _ & _ & Hst & ->).
  unfold TaskQueue.is_quota_bearing. by rewrite Hst.
Qed.

(** C1: a quota-bearing task is pushed onto a fresh one-thread queue and
    popped again.  No quota-bearing task is queued afterwards, yet the
    quota counter is 2: [pop] increments it where it should decrement. *)
Theorem quota_counter_after_push_pop :
  ∃ q,
    TaskQueue.run Samples.heap (TaskQueue.init TaskQueue.fresh 1)
      Samples.push_then_pop
    = Ok (q, [TaskQueue.Pushed 0 7%N; TaskQueue.Popped 0 7%N])
    ∧ TaskQueue.is_quota_bearing Samples.heap 7%N = true
    ∧ TaskQueue.quota_bearing_tasks Samples.heap q = O
    ∧ TaskQueue.quota q = 2.
Proof. eexists. split_and!; by vm_compute. Qed.

Lemma pop_scans_round_robin_witness :
  (0 < length (queues Samples.backlog))%nat
  ∧ TaskQueue.consistent Samples.backlog
  ∧ (0 < TaskQueue.total_tasks Samples.backlog)%nat
  ∧ TaskQueue.valid Samples.heap Samples.backlog
  ∧ (∃ k state rest q',
        (k < length (queues Samples.backlog))%nat
        ∧ (∀ j, (j < k)%nat →
             queues Samples.backlog
               !! ((0 + j) mod length (queues Samples.backlog))%nat = Some [])
        ∧ queues Samples.backlog
            !! ((0 + k) mod length (queues Samples.backlog))%nat
            = Some (state :: rest)
        ∧ TaskQueue.pop Samples.heap Samples.backlog 0 = Ok (state, q')
        ∧ queues q'
            = <[((0 + k) mod length (queues Samples.backlog))%nat := rest]>
                (queues Samples.backlog))
  ∧ (∀ state rest,
       queues Samples.backlog !! O = Some (state :: rest) →
       ∃ q', TaskQueue.pop Samples.heap Samples.backlog 0 = Ok (state, q')
             ∧ queues q' = <[O := rest]> (queues Samples.backlog)).
Proof.
  assert (H1 : (0 < length (queues Samples.backlog))%nat) by (simpl; lia).
  assert (H2 : TaskQueue.consistent Samples.backlog) by reflexivity.
  assert (H3 : (0 < TaskQueue.total_tasks Samples.backlog)%nat)
    by (vm_compute; lia).
  assert (H4 : TaskQueue.valid Samples.heap Samples.backlog)
    by (repeat constructor; vm_compute; eauto).
  split_and!; [done.. | |];
    apply (pop_scans_round_robin Samples.heap Samples.backlog O H1 H2 H3 H4).
Defined.

Lemma pop_throws_iff_size_zero_witness :
  (1 < length (queues Samples.backlog))%nat
  ∧ TaskQueue.consistent Samples.backlog
  ∧ TaskQueue.valid Samples.heap Samples.backlog
  ∧ ((∃ e, TaskQueue.pop Samples.heap Samples.backlog 1 = Throw e)
     ↔ TaskQueue.size Samples.backlog = 0)
  ∧ (∀ e, TaskQueue.pop Samples.heap Samples.backlog 1 = Throw e →
          e = TaskQueue.is_empty_error
          ∧ code e = ErrorCodes.LOGICAL_ERROR)
  ∧ (0 < TaskQueue.size Samples.backlog →
     ∃ (t : nat) state rest q',
       TaskQueue.pop Samples.heap Samples.backlog 1 = Ok (state, q')
       ∧ queues Samples.backlog !! t = Some (state :: rest)
       ∧ state ∈ concat (queues Samples.backlog)
       ∧ is_Some (Samples.heap !! state)
       ∧ queues q' = <[t := rest]> (queues Samples.backlog)
       ∧ S (TaskQueue.total_tasks q') = TaskQueue.total_tasks Samples.backlog
       ∧ TaskQueue.size q' = wrap64 (TaskQueue.size Samples.backlog - 1)).
Proof.
  assert (H1 : (1 < length (queues Samples.backlog))%nat) by (simpl; lia).
  assert (H2 : TaskQueue.consistent Samples.backlog) by reflexivity.
  assert (H3 : TaskQueue.valid Samples.heap Samples.backlog)
    by (repeat constructor; vm_compute; eauto).
  split_and!; [done.. | | |];
    apply (pop_throws_iff_size_zero Samples.heap Samples.backlog 1 H1 H2 H3).
Defined.

Lemma size_counts_queued_tasks_witness :
  TaskQueue.run Samples.heap (TaskQueue.init TaskQueue.fresh 2) Samples.calls
  = Ok (Samples.after_calls, Samples.events_of_calls)
  ∧ Z.of_nat (TaskQueue.total_tasks Samples.after_calls) < size_t_modulus
  ∧ TaskQueue.size Samples.after_calls
    = Z.of_nat (TaskQueue.total_tasks Samples.after_calls)
  ∧ (TaskQueue.empty Samples.after_calls = true
     ↔ TaskQueue.total_tasks Samples.after_calls = O).
Proof.
  assert (H1 : TaskQueue.run Samples.heap (TaskQueue.init TaskQueue.fresh 2)
                 Samples.calls
               = Ok (Samples.after_calls, Samples.events_of_calls))
    by (vm_compute; reflexivity).
  assert (H2 : Z.of_nat (TaskQueue.total_tasks Samples.after_calls)
               < size_t_modulus) by (vm_compute; reflexivity).
  split_and!; [done.. | |];
    apply (size_counts_queued_tasks Samples.heap 2 Samples.calls
             Samples.after_calls Samples.events_of_calls H1 H2).
Defined.

Lemma per_thread_queue_is_fifo_witness :
  TaskQueue.run Samples.heap (TaskQueue.init TaskQueue.fresh 2) Samples.calls
  = Ok (Samples.after_calls, Samples.events_of_calls)
  ∧ (∀ thread : nat,
        TaskQueue.pushed_to thread Samples.events_of_calls
        = TaskQueue.popped_from thread Samples.events_of_calls
          ++ TaskQueue.queue_at Samples.after_calls thread)
  ∧ (∀ (thread k : nat) state,
       TaskQueue.popped_from thread Samples.events_of_calls !! k = Some state →
       TaskQueue.pushed_to thread Samples.events_of_calls !! k = Some state)
  ∧ (∀ state (thread_num : nat),
       queues Samples.after_calls !! thread_num = Some [] →
       is_Some (Samples.heap !! state) →
       Z.of_nat (TaskQueue.total_tasks Samples.after_calls) + 1
       < size_t_modulus →
       ∃ q1 q2,
         TaskQueue.push Samples.heap Samples.after_calls state thread_num
         = Ok q1
         ∧ TaskQueue.pop Samples.heap q1 thread_num = Ok (state, q2)).
Proof.
  assert (H1 : TaskQueue.run Samples.heap (TaskQueue.init TaskQueue.fresh 2)
                 Samples.calls
               = Ok (Samples.after_calls, Samples.events_of_calls))
    by (vm_compute; reflexivity).
  split_and!; [done | | |];
    apply (per_thread_queue_is_fifo Samples.heap 2 Samples.calls
             Samples.after_calls Samples.events_of_calls H1).
Defined.

End task_queue.

(** ** Nodes and their collection *)

Section nodes.

Implicit Types (w : World.t) (n : Node.t) (v : Nodes.t).

(** The constructor on a processor that exists. *)
Lemma Node_new_Done w (p : ptr) obj (processor_id : Z) :
  World.processors w !! p = Some obj →
  Node.new w (Some p) processor_id
  = Done
      (Node.mk (Some p) [] [] ExecStatus.Idle false [] []
         IProcessor.NeedData (Some (fresh (dom (World.states w)))) [] [])
      (World.mk (World.processors w)
         (<[fresh (dom (World.states w)) :=
              ExecutionState.mk None None (Some p) processor_id
                (IProcessor.hasQuota obj) 0 0 0]> (World.states w))
         (World.trace w ++ [CallHasQuota p])).
Proof. intros Hobj. unfold Node.new. by rewrite Hobj. Qed.

(** Inversion of a returning constructor. *)
Lemma Node_new_inv w processor_ (processor_id : Z) n w' :
  Node.new w processor_ processor_id = Done n w' →
  ∃ p obj,
    processor_ = Some p
    ∧ World.processors w !! p = Some obj
    ∧ n = Node.mk (Some p) [] [] ExecStatus.Idle false [] []
            IProcessor.NeedData (Some (fresh (dom (World.states w)))) [] []
    ∧ w' = World.mk (World.processors w)
             (<[fresh (dom (World.states w)) :=
                  ExecutionState.mk None None (Some p) processor_id
                    (IProcessor.hasQuota obj) 0 0 0]> (World.states w))
             (World.trace w ++ [CallHasQuota p]).
Proof.
  unfold Node.new. intros H. destruct processor_ as [p|]; [| done].
  destruct (World.processors w !! p) as [obj|] eqn:Hobj; [| done].
  exists p, obj. by simplify_eq.
Qed.

(** The address [make_unique] returns is not in use. *)
Lemma fresh_state_unused w :
  World.states w !! fresh (dom (World.states w)) = None.
Proof. apply not_elem_of_dom, is_fresh. Qed.

(** C7: a node built for a processor and a node id has status [Idle]; its
    execution state is allocated by the constructor, and is bound to that
    processor and that id; its quota flag is the answer of the one
    [hasQuota] call the constructor makes.  Afterwards the flag is read from
    the execution state: a push of that state counts it by the stored
    flag. *)
Theorem node_constructor w (processor_ : ptr) obj (processor_id : Z) :
  World.processors w !! processor_ = Some obj →
  ∃ n a st w',
    Node.new w (Some processor_) processor_id = Done n w'
    ∧ Node.status n = ExecStatus.Idle
    ∧ Node.processor n = Some processor_
    ∧ Node.execution_state n = Some a
    ∧ World.states w !! a = None
    ∧ World.states w' !! a = Some st
    ∧ ExecutionState.processor st = Some processor_
    ∧ ExecutionState.processors_id st = processor_id
    ∧ ExecutionState.has_quota st = IProcessor.hasQuota obj
    ∧ World.trace w' = World.trace w ++ [CallHasQuota processor_]
    ∧ ∀ (q : TaskQueue.t) (thread_num : nat) qu,
        TaskQueue.queues q !! thread_num = Some qu →
        TaskQueue.push (World.states w') q a thread_num
        = Ok (TaskQueue.mk (<[thread_num := qu ++ [a]]> (TaskQueue.queues q))
                (wrap64 (TaskQueue.size_ q + 1))
                (if IProcessor.hasQuota obj
                 then wrap64 (TaskQueue.quota_ q + 1)
                 else TaskQueue.quota_ q)).
Proof.
  intros Hobj. eexists _, _, _, _. split; [by apply Node_new_Done |].
  simpl. split_and!; [done.. | | | | | | |].
  - apply fresh_state_unused.
  - apply lookup_insert_eq.
  - done.
  - done.
  - done.
  - done.
  - intros q thread_num qu Hq. unfold TaskQueue.push.
    by rewrite Hq, lookup_insert_eq.
Qed.

Lemma node_constructor_witness :
  World.processors Samples.world !! 3%N = Some Samples.source
  ∧ ∃ n a st w',
      Node.new Samples.world (Some 3%N) 0 = Done n w'
      ∧ Node.status n = ExecStatus.Idle
      ∧ Node.processor n = Some 3%N
      ∧ Node.execution_state n = Some a
      ∧ World.states Samples.world !! a = None
      ∧ World.states w' !! a = Some st
      ∧ ExecutionState.processor st = Some 3%N
      ∧ ExecutionState.processors_id st = 0
      ∧ ExecutionState.has_quota st = IProcessor.hasQuota Samples.source
      ∧ World.trace w' = World.trace Samples.world ++ [CallHasQuota 3%N]
      ∧ ∀ (q : TaskQueue.t) (thread_num : nat) qu,
          TaskQueue.queues q !! thread_num = Some qu →
          TaskQueue.push (World.states w') q a thread_num
          = Ok (TaskQueue.mk
                  (<[thread_num := qu ++ [a]]> (TaskQueue.queues q))
                  (wrap64 (TaskQueue.size_ q + 1))
                  (if IProcessor.hasQuota Samples.source
                   then wrap64 (TaskQueue.quota_ q + 1)
                   else TaskQueue.quota_ q)).
Proof.
  assert (H1 : World.processors Samples.world !! 3%N = Some Samples.source)
    by (vm_compute; reflexivity).
  split; [done |].
  apply (node_constructor Samples.world 3%N Samples.source 0 H1).
Defined.

(** Inversion of a returning [emplace_back]. *)
Lemma emplace_back_inv w v processor_ (processor_id : Z) v' w' :
  Nodes.emplace_back w v processor_ processor_id = Done v' w' →
  ∃ n,
    Node.new w processor_ processor_id = Done n w'
    ∧ v' = Nodes.mk
             (Nodes.data (if bool_decide (Nodes.size v < Nodes.capacity v)%nat
                          then v else Nodes.relocate v) ++ [n])
             (Nodes.capacity
                (if bool_decide (Nodes.size v < Nodes.capacity v)%nat
                 then v else Nodes.relocate v)).
Proof.
  unfold Nodes.emplace_back. intros H.
  destruct (Node.new w processor_ processor_id) as [n w1| |] eqn:Hnew;
    simpl in H; [| done..].
  exists n. by simplify_eq.
Qed.

(** A new node leaves the execution states that exist as they are. *)
Lemma Node_new_states w processor_ (processor_id : Z) n w' a st :
  Node.new w processor_ processor_id = Done n w' →
  World.states w !! a = Some st →
  World.states w' !! a = Some st.
Proof.
  intros Hnew Ha. apply Node_new_inv in Hnew as (p & obj & -> & _ & -> & ->).
  simpl. rewrite lookup_insert_ne; [done |].
  intros <-. by rewrite fresh_state_unused in Ha.
Qed.

(** C2, as the code has it: when the node collection grows by one, every
    node it held stays at its index with its processor, its status and its
    execution state, and the execution states themselves are untouched.  If
    the storage had room the node is unchanged altogether; if the nodes were
    relocated, each is the move-constructed copy, whose edge lists, pending
    post-updated port lists and updated-port lists are empty. *)
Theorem emplace_back_keeps_nodes w v processor_ (processor_id : Z) v' w' :
  Nodes.emplace_back w v processor_ processor_id = Done v' w' →
  Nodes.size v' = S (Nodes.size v)
  ∧ (∀ a st, World.states w !! a = Some st → World.states w' !! a = Some st)
  ∧ ∀ (i : nat) n,
      Nodes.data v !! i = Some n →
      ∃ n',
        Nodes.data v' !! i = Some n'
        ∧ Node.processor n' = Node.processor n
        ∧ Node.status n' = Node.status n
        ∧ Node.execution_state n' = Node.execution_state n
        ∧ ((Nodes.size v < Nodes.capacity v)%nat → n' = n)
        ∧ ((Nodes.capacity v ≤ Nodes.size v)%nat →
           n' = (Node.move n).1
           ∧ Node.directEdges n' = []
           ∧ Node.backEdges n' = []
           ∧ Node.post_updated_input_ports n' = []
           ∧ Node.post_updated_output_ports n' = []
           ∧ Node.updated_input_ports n' = []
           ∧ Node.updated_output_ports n' = []).
Proof.
  intros Hgrow. apply emplace_back_inv in Hgrow as (new & Hnew & ->).
  split_and!.
  - unfold Nodes.size. simpl. case_bool_decide; simpl;
      rewrite length_app, ?length_fmap; simpl; lia.
  - intros a st. by eapply Node_new_states.
  - intros i n Hi. simpl. case_bool_decide as Hroom; simpl.
    + exists n. rewrite lookup_app_l by by eapply lookup_lt_Some.
      split_and!; try done. unfold Nodes.size in *. lia.
    + exists (Node.move n).1.
      rewrite lookup_app_l
        by (rewrite length_fmap; by eapply lookup_lt_Some).
      rewrite list_lookup_fmap, Hi. by split_and!.
Qed.

Lemma emplace_back_keeps_nodes_witness :
  ∃ v' w',
    Nodes.emplace_back Samples.world_with_source Samples.full_graph
      (Some 4%N) 1 = Done v' w'
    ∧ Nodes.size v' = S (Nodes.size Samples.full_graph)
    ∧ (∀ a st, World.states Samples.world_with_source !! a = Some st →
               World.states w' !! a = Some st)
    ∧ ∀ (i : nat) n,
        Nodes.data Samples.full_graph !! i = Some n →
        ∃ n',
          Nodes.data v' !! i = Some n'
          ∧ Node.processor n' = Node.processor n
          ∧ Node.status n' = Node.status n
          ∧ Node.execution_state n' = Node.execution_state n
          ∧ ((Nodes.size Samples.full_graph
              < Nodes.capacity Samples.full_graph)%nat → n' = n)
          ∧ ((Nodes.capacity Samples.full_graph
              ≤ Nodes.size Samples.full_graph)%nat →
             n' = (Node.move n).1
             ∧ Node.directEdges n' = []
             ∧ Node.backEdges n' = []
             ∧ Node.post_updated_input_ports n' = []
             ∧ Node.post_updated_output_ports n' = []
             ∧ Node.updated_input_ports n' = []
             ∧ Node.updated_output_ports n' = []).
Proof.
  eexists _, _. split; [vm_compute; reflexivity |].
  apply (emplace_back_keeps_nodes Samples.world_with_source
           Samples.full_graph (Some 4%N) 1).
  vm_compute. reflexivity.
Defined.

(** C2 as stated fails: the full vector grows, its node is relocated, and
    the relocated node has lost the forward edge, the pending post-updated
    output port and the updated output port it had. *)
Lemma relocated_node_loses_edges :
  ∃ v' w' n',
    Nodes.emplace_back Samples.world_with_source Samples.full_graph
      (Some 4%N) 1 = Done v' w'
    ∧ Nodes.data Samples.full_graph !! O = Some Samples.connected_node
    ∧ Nodes.data v' !! O = Some n'
    ∧ Node.directEdges n' ≠ Node.directEdges Samples.connected_node
    ∧ Node.post_updated_output_ports n'
      ≠ Node.post_updated_output_ports Samples.connected_node
    ∧ Node.updated_output_ports n'
      ≠ Node.updated_output_ports Samples.connected_node.
Proof.
  eexists _, _, _. split; [vm_compute; reflexivity |].
  split_and!; [done | vm_compute; reflexivity | done..].
Qed.

End nodes.

(** ** Graph construction *)

Section construction.

Implicit Types (w : World.t) (v : Nodes.t) (map : gmap ptr Z).

Lemma relocate_processors v :
  Node.processor <$> Nodes.data (Nodes.relocate v)
  = Node.processor <$> Nodes.data v.
Proof.
  unfold Nodes.relocate. simpl. rewrite <- list_fmap_compose.
  by apply list_fmap_ext.
Qed.

(** Appending the node of a processor that exists. *)
Lemma emplace_back_Done w v (p : ptr) obj (processor_id : Z) :
  World.processors w !! p = Some obj →
  ∃ v' w',
    Nodes.emplace_back w v (Some p) processor_id = Done v' w'
    ∧ World.processors w' = World.processors w
    ∧ World.trace w' = World.trace w ++ [CallHasQuota p]
    ∧ Node.processor <$> Nodes.data v'
      = (Node.processor <$> Nodes.data v) ++ [Some p].
Proof.
  intros Hobj. unfold Nodes.emplace_back.
  rewrite (Node_new_Done _ _ _ _ Hobj). simpl.
  eexists _, _. split; [done |]. simpl. split_and!; [done.. |].
  rewrite fmap_app. simpl. f_equal.
  case_bool_decide; [done | apply relocate_processors].
Qed.

(** The first half of [buildGraph] on processors that exist: one node per
    processor, in order, each processor indexed, one [hasQuota] call each. *)
Lemma create_nodes_Done processors : ∀ w v map,
  Forall (λ p, is_Some (World.processors w !! p)) processors →
  ∃ v' map' w',
    PipelineExecutor.create_nodes w v map processors = Done (v', map') w'
    ∧ World.processors w' = World.processors w
    ∧ World.trace w' = World.trace w ++ (CallHasQuota <$> processors)
    ∧ Node.processor <$> Nodes.data v'
      = (Node.processor <$> Nodes.data v) ++ (Some <$> processors)
    ∧ ∀ p, is_Some (map' !! p) ↔ is_Some (map !! p) ∨ p ∈ processors.
Proof.
  induction processors as [|p processors IH]; intros w v map Hvalid.
  { exists v, map, w. simpl. rewrite !app_nil_r. split_and!; [done.. |].
    intros p. split; [by left | intros [? | Hin]; [done |]].
    by apply elem_of_nil in Hin. }
  apply Forall_cons in Hvalid as [[obj Hobj] Hvalid].
  destruct (emplace_back_Done w v p obj (Z.of_nat (Nodes.size v)) Hobj)
    as (v1 & w1 & Hgrow & Hprocs1 & Htrace1 & Hdata1).
  destruct (IH w1 v1 (<[p := Z.of_nat (Nodes.size v)]> map))
    as (v' & map' & w' & Hrest & Hprocs & Htrace & Hdata & Hmap).
  { by rewrite Hprocs1. }
  exists v', map', w'. simpl. rewrite Hgrow. simpl. split_and!.
  - done.
  - by rewrite Hprocs.
  - rewrite Htrace, Htrace1, <- app_assoc. done.
  - rewrite Hdata, Hdata1, <- app_assoc. done.
  - intros q. rewrite Hmap, elem_of_cons.
    destruct (decide (p = q)) as [<- | Hne].
    + rewrite lookup_insert_eq. split; [intros _ | intros _; left; by eexists].
      right. by left.
    + rewrite lookup_insert_ne by done.
      split; [intros [? | ?]; [by left | right; by right] |].
      intros [? | [? | ?]]; [by left | done | by right].
Qed.

Section edges.

Context (l : Layout) (map : gmap ptr Z) (processors : list ptr).
Context (Hmap : ∀ p, is_Some (map !! p) ↔ p ∈ processors).

(** The edges of one side of a node: built when every port is resolved, a
    structural error at the first port that is not. *)
Lemma add_port_edges_cases (node : nat) (backward : bool) ports :
  ∀ (number : nat) edges,
    (Forall (PipelineExecutor.port_resolved processors) ports
     ∧ ∃ edges',
         PipelineExecutor.add_port_edges l map node backward ports number edges
         = Ok edges')
    ∨ (¬ Forall (PipelineExecutor.port_resolved processors) ports
       ∧ ∃ e,
           PipelineExecutor.add_port_edges l map node backward ports number
             edges = Throw e
           ∧ code e = ErrorCodes.STRUCTURAL_ERROR).
Proof.
  induction ports as [|port ports IH]; intros number edges; simpl.
  { left. split; [done | by eexists]. }
  destruct (IProcessor.peer port) as [[p k]|] eqn:Hpeer.
  - destruct (map !! p) as [to_|] eqn:Hto.
    + assert (Hres : PipelineExecutor.port_resolved processors port).
      { exists p, k. split; [done |]. apply Hmap. by eexists. }
      destruct (IH (S number)
                  (edges ++
                   [Edge.new (edge_at l node backward number) to_ backward
                      (Z.of_nat (if backward then number else k))
                      (Z.of_nat (if backward then k else number))
                      (Some (update_list_at l node backward))]))
        as [[Hall Hok] | [Hnot Hthrow]].
      * left. split; [by constructor | done].
      * right. split; [| done]. intros Hall.
        apply Forall_cons in Hall as [_ Hall]. done.
    + right. split; [| by eexists].
      intros Hall. apply Forall_cons in Hall as [(p' & k' & Hp' & Hin) _].
      simplify_eq. apply Hmap in Hin as [? Hin]. congruence.
  - right. split; [| by eexists].
    intros Hall. apply Forall_cons in Hall as [(p' & k' & Hp' & _) _].
    congruence.
Qed.

Lemma addEdges_cases w (node : nat) n (p : ptr) obj :
  Node.processor n = Some p →
  World.processors w !! p = Some obj →
  (Forall (PipelineExecutor.port_resolved processors)
     (IProcessor.inputs obj ++ IProcessor.outputs obj)
   ∧ ∃ n', PipelineExecutor.addEdges w l map node n = Ok n')
  ∨ (¬ Forall (PipelineExecutor.port_resolved processors)
         (IProcessor.inputs obj ++ IProcessor.outputs obj)
     ∧ ∃ e, PipelineExecutor.addEdges w l map node n = Throw e
            ∧ code e = ErrorCodes.STRUCTURAL_ERROR).
Proof.
  intros Hp Hobj. unfold PipelineExecutor.addEdges.
  rewrite Hp. simpl. rewrite Hobj.
  destruct (add_port_edges_cases node true (IProcessor.inputs obj) O
              (Node.backEdges n))
    as [[Hin [back ->]] | [Hnot (e & -> & He)]]; simpl.
  - destruct (add_port_edges_cases node false (IProcessor.outputs obj) O
                (Node.directEdges n))
      as [[Hout [direct ->]] | [Hnot (e & -> & He)]]; simpl.
    + left. split; [by apply Forall_app | by eexists].
    + right. split; [| by eexists].
      intros Hall. apply Forall_app in Hall as [_ ?]. done.
  - right. split; [| by eexists].
    intros Hall. apply Forall_app in Hall as [? _]. done.
Qed.

Lemma add_all_edges_cases w nodes : ∀ (procs : list ptr) (node : nat),
  Node.processor <$> nodes = Some <$> procs →
  Forall (λ p, is_Some (World.processors w !! p)) procs →
  (Forall (λ p, ∃ obj,
             World.processors w !! p = Some obj
             ∧ Forall (PipelineExecutor.port_resolved processors)
                 (IProcessor.inputs obj ++ IProcessor.outputs obj)) procs
   ∧ ∃ nodes',
       PipelineExecutor.add_all_edges w l map node nodes = Ok nodes'
       ∧ length nodes' = length nodes)
  ∨ (¬ Forall (λ p, ∃ obj,
                 World.processors w !! p = Some obj
                 ∧ Forall (PipelineExecutor.port_resolved processors)
                     (IProcessor.inputs obj ++ IProcessor.outputs obj)) procs
     ∧ ∃ e, PipelineExecutor.add_all_edges w l map node nodes = Throw e
            ∧ code e = ErrorCodes.STRUCTURAL_ERROR).
Proof.
  induction nodes as [|n nodes IH]; intros [|p procs] node Hnodes Hvalid;
    simplify_eq/=.
  { left. split; [done | by eexists]. }
  apply Forall_cons in Hvalid as [[obj Hobj] Hvalid].
  destruct (addEdges_cases w node n p obj) as
    [[Hports [n' ->]] | [Hnot (e & -> & He)]]; [done.. | |]; simpl.
  - destruct (IH procs (S node)) as
      [[Hall (nodes' & -> & Hlen)] | [Hnot (e & -> & He)]]; [done.. | |]; simpl.
    + left. split; [| eexists; split; [done | simpl; lia]].
      constructor; [by exists obj | done].
    + right. split; [| by eexists].
      intros Hall. apply Forall_cons in Hall as [_ ?]. done.
  - right. split; [| by eexists].
    intros Hall. apply Forall_cons in Hall as [(obj' & ? & ?) _].
    by simplify_eq.
Qed.

End edges.

Lemma no_spawn_among_quota_calls (trace : list Event) (processors : list ptr)
    (thread : nat) :
  ThreadSpawned thread ∈ trace ++ (CallHasQuota <$> processors) →
  ThreadSpawned thread ∈ trace.
Proof.
  intros Hin. apply elem_of_app in Hin as [? | Hin]; [done |].
  apply list_elem_of_fmap in Hin as (p & ? & _). done.
Qed.

(** The constructor on processors that exist: it returns when the set is
    fully connected and throws a structural error when it is not; either way
    it has made one [hasQuota] call per processor and nothing else. *)
Lemma new_cases w l (processors : list ptr) :
  Forall (λ p, is_Some (World.processors w !! p)) processors →
  (PipelineExecutor.fully_connected w processors
   ∧ ∃ ex w',
       PipelineExecutor.new w l processors = Done ex w'
       ∧ PipelineExecutor.processors ex = processors
       ∧ Nodes.size (PipelineExecutor.graph ex) = length processors
       ∧ World.trace w' = World.trace w ++ (CallHasQuota <$> processors))
  ∨ (¬ PipelineExecutor.fully_connected w processors
     ∧ ∃ e w',
         PipelineExecutor.new w l processors = Failed e w'
         ∧ code e = ErrorCodes.STRUCTURAL_ERROR
         ∧ World.trace w' = World.trace w ++ (CallHasQuota <$> processors)).
Proof.
  intros Hvalid.
  destruct (create_nodes_Done processors w Nodes.empty ∅ Hvalid)
    as (v & map & w1 & Hnodes & Hprocs & Htrace & Hdata & Hmap).
  assert (Hmap' : ∀ p, is_Some (map !! p) ↔ p ∈ processors).
  { intros p. rewrite Hmap, lookup_empty. split; [| by right].
    intros [[? ?] | ?]; done. }
  simpl in Hdata.
  assert (Hvalid1 : Forall (λ p, is_Some (World.processors w1 !! p)) processors)
    by by rewrite Hprocs.
  unfold PipelineExecutor.new, PipelineExecutor.buildGraph,
    PipelineExecutor.fully_connected.
  rewrite Hnodes. simpl. rewrite <- Hprocs.
  destruct (add_all_edges_cases l map processors Hmap' w1 (Nodes.data v)
              processors O Hdata Hvalid1)
    as [[Hall (nodes' & -> & Hlen)] | [Hnot (e & -> & He)]]; simpl.
  - left. split; [done |]. eexists _, _. split; [done |]. simpl.
    split_and!; [done | | done].
    unfold Nodes.size. simpl. rewrite Hlen.
    rewrite <- (length_fmap Node.processor), Hdata. by rewrite length_fmap.
  - right. split; [done |]. by eexists _, _.
Qed.

Lemma dangling_not_connected w (processors : list ptr) (p : ptr) obj port :
  p ∈ processors →
  World.processors w !! p = Some obj →
  port ∈ IProcessor.inputs obj ++ IProcessor.outputs obj →
  PipelineExecutor.port_dangling processors port →
  ¬ PipelineExecutor.fully_connected w processors.
Proof.
  intros Hp Hobj Hport Hdangling Hfull.
  unfold PipelineExecutor.fully_connected in Hfull.
  rewrite Forall_forall in Hfull.
  destruct (Hfull p Hp) as (obj' & Hobj' & Hports). simplify_eq.
  rewrite Forall_forall in Hports.
  destruct (Hports port Hport) as (q & k & Hpeer & Hq).
  destruct Hdangling as [Hnone | (q' & k' & Hpeer' & Hq')]; [congruence |].
  by simplify_eq.
Qed.

(** C8: constructing the executor from a set of processors fails with a
    structural error whenever some port of some processor has no connected
    peer or a peer that is not in the set; the failure yields no executor,
    and the only calls made are the [hasQuota] queries, so no thread was
    spawned.  For a fully connected set construction succeeds, with one node
    per processor. *)
Theorem constructor_checks_connectivity w l (processors : list ptr) :
  Forall (λ p, is_Some (World.processors w !! p)) processors →
  ((∃ (p : ptr) obj port,
       p ∈ processors
       ∧ World.processors w !! p = Some obj
       ∧ port ∈ IProcessor.inputs obj ++ IProcessor.outputs obj
       ∧ PipelineExecutor.port_dangling processors port) →
   ∃ e w',
     PipelineExecutor.new w l processors = Failed e w'
     ∧ code e = ErrorCodes.STRUCTURAL_ERROR
     ∧ World.trace w' = World.trace w ++ (CallHasQuota <$> processors)
     ∧ ∀ thread, ThreadSpawned thread ∈ World.trace w' →
                 ThreadSpawned thread ∈ World.trace w)
  ∧ (PipelineExecutor.fully_connected w processors →
     ∃ ex w',
       PipelineExecutor.new w l processors = Done ex w'
       ∧ PipelineExecutor.processors ex = processors
       ∧ Nodes.size (PipelineExecutor.graph ex) = length processors
       ∧ ∀ thread, ThreadSpawned thread ∈ World.trace w' →
                   ThreadSpawned thread ∈ World.trace w).
Proof.
  intros Hvalid.
  destruct (new_cases w l processors Hvalid)
    as [[Hfull (ex & w' & Hnew & Hprocs & Hsize & Htrace)]
       | [Hnot (e & w' & Hnew & He & Htrace)]].
  - split.
    + intros (p & obj & port & Hp & Hobj & Hport & Hdangling).
      by destruct (dangling_not_connected _ _ _ _ _ Hp Hobj Hport Hdangling).
    + intros _. exists ex, w'. split_and!; [done.. |].
      intros thread. rewrite Htrace. apply no_spawn_among_quota_calls.
  - split; [| done].
    intros _. exists e, w'. split_and!; [done.. |].
    intros thread. rewrite Htrace. apply no_spawn_among_quota_calls.
Qed.

Lemma constructor_checks_connectivity_witness :
  Forall (λ p, is_Some (World.processors Samples.world !! p)) [3%N; 4%N]
  ∧ PipelineExecutor.fully_connected Samples.world [3%N; 4%N]
  ∧ ∃ ex w',
      PipelineExecutor.new Samples.world Samples.layout [3%N; 4%N]
      = Done ex w'
      ∧ PipelineExecutor.processors ex = [3%N; 4%N]
      ∧ Nodes.size (PipelineExecutor.graph ex) = length [3%N; 4%N]
      ∧ ∀ thread, ThreadSpawned thread ∈ World.trace w' →
                  ThreadSpawned thread ∈ World.trace Samples.world.
Proof.
  assert (H1 : Forall (λ p, is_Some (World.processors Samples.world !! p))
                 [3%N; 4%N])
    by (repeat constructor; vm_compute; eauto).
  assert (H2 : PipelineExecutor.fully_connected Samples.world [3%N; 4%N]).
  { repeat constructor.
    - exists Samples.source. split; [vm_compute; reflexivity |].
      repeat constructor. exists 4%N, O. split; [reflexivity |].
      apply elem_of_cons. right. apply elem_of_cons. by left.
    - exists Samples.sink. split; [vm_compute; reflexivity |].
      repeat constructor. exists 3%N, O. split; [reflexivity |].
      apply elem_of_cons. by left. }
  split_and!; [done | done |].
  apply (proj2 (constructor_checks_connectivity Samples.world Samples.layout
                  [3%N; 4%N] H1) H2).
Defined.

(** The sample pair of processors gives two nodes joined by a forward and a
    backward edge. *)
Example constructor_sample_connected :
  ∃ ex w',
    PipelineExecutor.new Samples.world Samples.layout [3%N; 4%N] = Done ex w'
    ∧ (Node.directEdges <$> Nodes.data (PipelineExecutor.graph ex))
      = [[Edge.new 1000%N 1 false 0 0 (Some 2000%N)]; []]
    ∧ (Node.backEdges <$> Nodes.data (PipelineExecutor.graph ex))
      = [[]; [Edge.new 1150%N 0 true 0 0 (Some 2003%N)]]
    ∧ World.trace w' = [CallHasQuota 3%N; CallHasQuota 4%N].
Proof. eexists _, _. split_and!; vm_compute; reflexivity. Qed.

(** The source alone: the peer of its output port is not in the set, and
    construction throws after the one [hasQuota] call. *)
Example constructor_sample_dangling :
  ∃ w',
    PipelineExecutor.new Samples.world Samples.layout [3%N]
    = Failed PipelineExecutor.unknown_peer w'
    ∧ World.trace w' = [CallHasQuota 3%N].
Proof. eexists. split; vm_compute; reflexivity. Qed.

End construction.

(** ** More on the task queue *)

Section task_queue_more.

Implicit Types (qs : list (list ptr)) (q : TaskQueue.t) (h : StateHeap).

Local Abbreviation queues := TaskQueue.queues.
Local Abbreviation size_ := TaskQueue.size_.
Local Abbreviation quota_ := TaskQueue.quota_.

(** Replacing one queue, up to the order of the tasks. *)
Lemma concat_insert_perm qs (t : nat) (old new : list ptr) :
  qs !! t = Some old →
  concat (<[t := new]> qs) ++ old ≡ₚ concat qs ++ new.
Proof.
  revert t. induction qs as [|x qs IH]; intros [|t] Hq; simplify_eq/=.
  - rewrite <- !app_assoc. rewrite (Permutation_app_comm (concat qs) old).
    rewrite (Permutation_app_comm (concat qs) new).
    rewrite !app_assoc. by rewrite (Permutation_app_comm new old).
  - rewrite <- !app_assoc. f_equiv. by apply IH.
Qed.

(** The tasks a returning call adds to, or takes from, the queues. *)
Lemma step_perm h q o q' e :
  TaskQueue.step h q o = Ok (q', e) →
  match e with
  | TaskQueue.Pushed _ state =>
      concat (queues q') ≡ₚ concat (queues q) ++ [state]
  | TaskQueue.Popped _ state =>
      concat (queues q) ≡ₚ state :: concat (queues q')
  end.
Proof.
  intros Hstep.
  destruct (step_Ok _ _ _ _ _ Hstep)
    as [(state & t & qu & -> & Hq & _ & -> & _)
       | (state & src & rest & -> & Hq & -> & _)].
  - pose proof (concat_insert_perm _ _ _ (qu ++ [state]) Hq) as Hperm.
    apply (Permutation_app_inv_r qu). rewrite Hperm, <- !app_assoc.
    f_equiv. apply Permutation_app_comm.
  - pose proof (concat_insert_perm _ _ _ rest Hq) as Hperm.
    apply (Permutation_app_inv_r rest). rewrite <- Hperm.
    by rewrite <- Permutation_middle.
Qed.

(** X1: [getAnyThreadWithTasks(from_thread)] returns [t] exactly when the
    size counter is not zero, [from_thread] is the index of a queue, and [t]
    is the first queue in round-robin order from [from_thread] that is not
    empty.  So what it returns is always the index of a non-empty queue. *)
Theorem getAnyThreadWithTasks_returns q (from_thread t : nat) :
  TaskQueue.getAnyThreadWithTasks q from_thread = Ok t
  ↔ size_ q ≠ 0
    ∧ (from_thread < length (queues q))%nat
    ∧ ∃ (k : nat) state rest,
        (k < length (queues q))%nat
        ∧ t = ((from_thread + k) mod length (queues q))%nat
        ∧ (∀ j, (j < k)%nat →
             queues q !! ((from_thread + j) mod length (queues q))%nat
             = Some [])
        ∧ queues q !! t = Some (state :: rest).
Proof.
  unfold TaskQueue.getAnyThreadWithTasks. split.
  - case_bool_decide as Hsize; [done |]. intros Hscan.
    assert (Hfrom : (from_thread < length (queues q))%nat).
    { destruct (decide (from_thread < length (queues q))%nat) as [|Hge];
        [done |].
      destruct (length (queues q)) as [|len] eqn:Hlen; [done |].
      simpl in Hscan. rewrite lookup_ge_None_2 in Hscan by lia. done. }
    split_and!; [done.. |].
    destruct (scan_cases (queues q) (length (queues q)) from_thread Hfrom)
      as [[Hthrow _] | (k & state & rest & Hk & Hbefore & Hhit & Hok)];
      [congruence |].
    exists k, state, rest. rewrite Hok in Hscan. by simplify_eq.
  - intros (Hsize & Hfrom & k & state & rest & Hk & -> & Hbefore & Hhit).
    rewrite bool_decide_eq_false_2 by done.
    destruct (scan_cases (queues q) (length (queues q)) from_thread Hfrom)
      as [[_ Hall] | (k' & state' & rest' & Hk' & Hbefore' & Hhit' & ->)].
    { rewrite (Hall k Hk) in Hhit. done. }
    destruct (Nat.lt_trichotomy k k') as [Hlt | [-> | Hlt]]; [| done |].
    + rewrite (Hbefore' k Hlt) in Hhit. done.
    + rewrite (Hbefore k' Hlt) in Hhit'. done.
Qed.

(** X2: [pop] throws the logical error, whatever [thread_num] is, when the
    size counter is zero, and also when the counter is not zero but no queue
    holds a task (the [throw] after the loop), provided [thread_num] is the
    index of a queue or there is no queue at all. *)
Theorem pop_throws_without_tasks h q (thread_num : nat) :
  size_ q = 0
  ∨ (concat (queues q) = []
     ∧ ((thread_num < length (queues q))%nat ∨ queues q = [])) →
  TaskQueue.pop h q thread_num = Throw TaskQueue.is_empty_error.
Proof.
  unfold TaskQueue.pop, TaskQueue.getAnyThreadWithTasks.
  intros [Hsize | [Hnone Hthread]].
  { by rewrite bool_decide_eq_true_2. }
  case_bool_decide; [done |].
  destruct Hthread as [Hthread | ->]; [| done].
  destruct (scan_cases (queues q) (length (queues q)) thread_num Hthread)
    as [[-> _] | (k & state & rest & _ & _ & Hhit & _)]; [done |].
  assert (Hin : state ∈ concat (queues q)).
  { eapply elem_of_concat_lookup; [done |]. apply elem_of_cons. by left. }
  rewrite Hnone in Hin. by apply elem_of_nil in Hin.
Qed.

Lemma pop_throws_without_tasks_witness :
  (concat (queues Scenarios.shrunk) = []
   ∧ ((0 < length (queues Scenarios.shrunk))%nat
      ∨ queues Scenarios.shrunk = []))
  ∧ TaskQueue.size Scenarios.shrunk = 2
  ∧ TaskQueue.pop Samples.heap Scenarios.shrunk 0
    = Throw TaskQueue.is_empty_error.
Proof.
  assert (H1 : concat (queues Scenarios.shrunk) = []
               ∧ ((0 < length (queues Scenarios.shrunk))%nat
                  ∨ queues Scenarios.shrunk = []))
    by (split; [reflexivity | left; simpl; lia]).
  split; [exact H1 |]. split; [reflexivity |].
  apply (pop_throws_without_tasks Samples.heap Scenarios.shrunk 0
           (or_intror H1)).
Defined.



Lemma history_pushed_cons e es :
  History.pushed (e :: es) = History.pushed [e] ++ History.pushed es.
Proof. unfold History.pushed. simpl. by destruct e. Qed.

Lemma history_popped_cons e es :
  History.popped (e :: es) = History.popped [e] ++ History.popped es.
Proof. unfold History.popped. simpl. by destruct e. Qed.

(** From any queue: what was queued or pushed is what was popped or is still
    queued. *)
Lemma run_perm h ops : ∀ q q' es,
  TaskQueue.run h q ops = Ok (q', es) →
  concat (queues q) ++ History.pushed es
  ≡ₚ History.popped es ++ concat (queues q').
Proof.
  induction ops as [|o ops IH]; intros q q' es Hrun.
  - simplify_eq/=. by rewrite app_nil_r.
  - apply run_cons in Hrun as (q1 & e & es1 & Hstep & Hrun & ->).
    rewrite history_pushed_cons, history_popped_cons.
    specialize (IH _ _ _ Hrun). apply step_perm in Hstep.
    destruct e as [t state | t state]; simpl.
    + rewrite <- IH, Hstep, <- !app_assoc. done.
    + rewrite <- IH, Hstep. done.
Qed.

(** X4: no task is lost and none is invented.  After any run of pushes and
    pops on a freshly initialised queue, the tasks pushed are, up to order,
    the tasks popped together with the tasks still queued. *)
Theorem run_conserves_tasks h (n : nat) ops q es :
  TaskQueue.run h (TaskQueue.init TaskQueue.fresh n) ops = Ok (q, es) →
  History.pushed es ≡ₚ History.popped es ++ concat (queues q).
Proof.
  intros Hrun. rewrite <- (run_perm _ _ _ _ _ Hrun).
  pose proof (init_fresh_total n) as H0. unfold TaskQueue.total_tasks in H0.
  apply nil_length_inv in H0. by rewrite H0.
Qed.

Lemma run_conserves_tasks_witness :
  TaskQueue.run Samples.heap (TaskQueue.init TaskQueue.fresh 2) Samples.calls
  = Ok (Samples.after_calls, Samples.events_of_calls)
  ∧ History.pushed Samples.events_of_calls
    ≡ₚ History.popped Samples.events_of_calls
       ++ concat (queues Samples.after_calls).
Proof.
  assert (H1 : TaskQueue.run Samples.heap (TaskQueue.init TaskQueue.fresh 2)
                 Samples.calls
               = Ok (Samples.after_calls, Samples.events_of_calls))
    by (vm_compute; reflexivity).
  split; [done |].
  apply (run_conserves_tasks Samples.heap 2 Samples.calls
           Samples.after_calls Samples.events_of_calls H1).
Defined.

(** *** The quota counter *)

Lemma quota_bearing_singleton h (state : ptr) :
  length (filter (λ state, TaskQueue.is_quota_bearing h state = true) [state])
  = if TaskQueue.is_quota_bearing h state then 1%nat else 0%nat.
Proof.
  rewrite filter_cons, filter_nil.
  destruct (TaskQueue.is_quota_bearing h state); by case_decide.
Qed.

(** The queued quota-bearing tasks after a returning call. *)
Lemma step_quota_bearing h q o q' e :
  TaskQueue.step h q o = Ok (q', e) →
  match e with
  | TaskQueue.Pushed _ state =>
      TaskQueue.quota_bearing_tasks h q'
      = (TaskQueue.quota_bearing_tasks h q
         + if TaskQueue.is_quota_bearing h state then 1 else 0)%nat
  | TaskQueue.Popped _ state =>
      TaskQueue.quota_bearing_tasks h q
      = (TaskQueue.quota_bearing_tasks h q'
         + if TaskQueue.is_quota_bearing h state then 1 else 0)%nat
  end.
Proof.
  intros Hstep. apply step_perm in Hstep.
  unfold TaskQueue.quota_bearing_tasks.
  destruct e as [t state | t state]; rewrite Hstep.
  - by rewrite filter_app, length_app, quota_bearing_singleton.
  - change (state :: concat (queues q'))
      with ([state] ++ concat (queues q')).
    rewrite filter_app, length_app, quota_bearing_singleton. lia.
Qed.

(** The quota counter after a returning call, push or pop alike. *)
Lemma step_quota h q o q' e :
  TaskQueue.step h q o = Ok (q', e) →
  quota_ q'
  = if TaskQueue.is_quota_bearing h (History.state_of e)
    then wrap64 (quota_ q + 1) else quota_ q.
Proof.
  intros Hstep. destruct o as [state thread_num | thread_num]; simpl in Hstep.
  - destruct (TaskQueue.push h q state thread_num) as [q1| |] eqn:Hpush;
      simpl in Hstep; simplify_eq.
    by apply push_quota in Hpush.
  - destruct (TaskQueue.getAnyThreadWithTasks q thread_num) as [src| |];
      simpl in Hstep; [| done..].
    destruct (TaskQueue.pop h q thread_num) as [[s q1]| |] eqn:Hpop;
      simpl in Hstep; simplify_eq.
    by apply pop_quota in Hpop.
Qed.

Lemma quota_bearing_popped_cons h e es :
  History.quota_bearing_popped h (e :: es)
  = (match e with
     | TaskQueue.Popped _ state =>
         if TaskQueue.is_quota_bearing h state then 1 else 0
     | TaskQueue.Pushed _ _ => 0
     end + History.quota_bearing_popped h es)%nat.
Proof.
  unfold History.quota_bearing_popped. rewrite history_popped_cons.
  rewrite filter_app, length_app. f_equal.
  destruct e as [t state | t state]; [done |].
  apply quota_bearing_singleton.
Qed.

Lemma run_quota h ops : ∀ q q' es (popped_before : nat),
  TaskQueue.run h q ops = Ok (q', es) →
  quota_ q = wrap64 (Z.of_nat (TaskQueue.quota_bearing_tasks h q)
                     + 2 * Z.of_nat popped_before) →
  quota_ q' = wrap64 (Z.of_nat (TaskQueue.quota_bearing_tasks h q')
                      + 2 * Z.of_nat (popped_before
                                      + History.quota_bearing_popped h es)).
Proof.
  induction ops as [|o ops IH]; intros q q' es p0 Hrun Hinv.
  { simplify_eq/=. rewrite Hinv. f_equal. unfold History.quota_bearing_popped.
    simpl. lia. }
  apply run_cons in Hrun as (q1 & e & es1 & Hstep & Hrun & ->).
  pose proof (step_quota _ _ _ _ _ Hstep) as Hquota.
  pose proof (step_quota_bearing _ _ _ _ _ Hstep) as Hqueued.
  rewrite quota_bearing_popped_cons.
  destruct e as [t state | t state]; simpl in Hquota;
    destruct (TaskQueue.is_quota_bearing h state).
  - rewrite (IH _ _ _ p0 Hrun); [f_equal; lia |].
    rewrite Hquota, Hinv, wrap64_succ, Hqueued. f_equal. lia.
  - rewrite (IH _ _ _ p0 Hrun); [f_equal; lia |].
    rewrite Hquota, Hinv, Hqueued. f_equal. lia.
  - rewrite (IH _ _ _ (S p0) Hrun); [f_equal; lia |].
    rewrite Hquota, Hinv, wrap64_succ, Hqueued. f_equal. lia.
  - rewrite (IH _ _ _ p0 Hrun); [f_equal; lia |].
    rewrite Hquota, Hinv, Hqueued. f_equal. lia.
Qed.

(** X5: [quota()] is the number of quota-bearing tasks queued for as long as
    no quota-bearing task has been popped: after any run of pushes and pops
    on a freshly initialised queue in which every task popped was without
    quota, the counter equals the number of queued tasks whose [has_quota] is
    set. *)
Theorem quota_counts_queued_until_popped h (n : nat) ops q es :
  TaskQueue.run h (TaskQueue.init TaskQueue.fresh n) ops = Ok (q, es) →
  History.quota_bearing_popped h es = O →
  Z.of_nat (TaskQueue.quota_bearing_tasks h q) < size_t_modulus →
  TaskQueue.quota q = Z.of_nat (TaskQueue.quota_bearing_tasks h q).
Proof.
  intros Hrun Hnone Hbound. unfold TaskQueue.quota.
  rewrite (run_quota _ _ _ _ _ O Hrun).
  - rewrite Hnone. rewrite wrap64_small; lia.
  - unfold TaskQueue.quota_bearing_tasks.
    pose proof (init_fresh_total n) as H0. unfold TaskQueue.total_tasks in H0.
    apply nil_length_inv in H0. by rewrite H0.
Qed.

Lemma quota_counts_queued_until_popped_witness :
  TaskQueue.run Samples.heap (TaskQueue.init TaskQueue.fresh 2) Samples.calls
  = Ok (Samples.after_calls, Samples.events_of_calls)
  ∧ History.quota_bearing_popped Samples.heap Samples.events_of_calls = O
  ∧ Z.of_nat (TaskQueue.quota_bearing_tasks Samples.heap Samples.after_calls)
    < size_t_modulus
  ∧ TaskQueue.quota Samples.after_calls
    = Z.of_nat
        (TaskQueue.quota_bearing_tasks Samples.heap Samples.after_calls).
Proof.
  assert (H1 : TaskQueue.run Samples.heap (TaskQueue.init TaskQueue.fresh 2)
                 Samples.calls
               = Ok (Samples.after_calls, Samples.events_of_calls))
    by (vm_compute; reflexivity).
  assert (H2 : History.quota_bearing_popped Samples.heap
                 Samples.events_of_calls = O) by (vm_compute; reflexivity).
  assert (H3 : Z.of_nat (TaskQueue.quota_bearing_tasks Samples.heap
                           Samples.after_calls) < size_t_modulus)
    by (vm_compute; reflexivity).
  split_and!; [done.. |].
  apply (quota_counts_queued_until_popped Samples.heap 2 Samples.calls
           Samples.after_calls Samples.events_of_calls H1 H2 H3).
Defined.

(** *** Pushes to different threads *)

(** X6: pushes to the queues of two different threads commute: either order
    gives the same queues and the same counters, or neither order is
    defined. *)
Theorem pushes_to_distinct_threads_commute h q
    (state1 : ptr) (thread1 : nat) (state2 : ptr) (thread2 : nat) :
  thread1 ≠ thread2 →
  History.push_push h q state1 thread1 state2 thread2
  = History.push_push h q state2 thread2 state1 thread1.
Proof.
  intros Hne. unfold History.push_push, TaskQueue.push.
  destruct (queues q !! thread1) as [qu1|] eqn:Hq1;
    destruct (queues q !! thread2) as [qu2|] eqn:Hq2;
    destruct (h !! state1) as [st1|] eqn:Hs1;
    destruct (h !! state2) as [st2|] eqn:Hs2;
    simpl;
    rewrite ?list_lookup_insert_ne, ?Hq1, ?Hq2, ?Hs1, ?Hs2 by done;
    try done.
  f_equal. f_equal.
  - by apply list_insert_insert_ne.
  - by destruct (ExecutionState.has_quota st1),
         (ExecutionState.has_quota st2).
Qed.

Lemma pushes_to_distinct_threads_commute_witness :
  (0 ≠ 2)%nat
  ∧ History.push_push Samples.heap Samples.backlog 7%N 0 8%N 2
    = History.push_push Samples.heap Samples.backlog 8%N 2 7%N 0
  ∧ History.push_push Samples.heap Samples.backlog 7%N 0 8%N 2
    = Ok (TaskQueue.mk [[7%N]; [8%N; 7%N]; [8%N]] 4 2).
Proof.
  assert (H1 : (0 ≠ 2)%nat) by lia.
  split_and!; [done | | vm_compute; reflexivity].
  apply (pushes_to_distinct_threads_commute Samples.heap Samples.backlog
           7%N 0 8%N 2 H1).
Defined.

(** *** Re-initialisation *)

Lemma concat_replicate_nil (k : nat) : concat (replicate k ([] : list ptr)) = [].
Proof. induction k as [|k IH]; [done | by simpl]. Qed.

Lemma concat_drop_empty qs (n : nat) :
  (∀ t : nat, (n ≤ t)%nat → default [] (qs !! t) = []) →
  concat (drop n qs) = [].
Proof.
  intros Hempty. apply concat_all_empty. intros t Ht.
  rewrite length_drop in Ht. rewrite lookup_drop.
  specialize (Hempty (n + t)%nat ltac:(lia)).
  destruct (qs !! (n + t)%nat) as [x|] eqn:Hx; [by simplify_eq/= |].
  apply lookup_ge_None in Hx. lia.
Qed.

(** X7: [init(num_threads)] resizes the vector of queues and nothing else.
    The queues below [num_threads] keep their tasks, the queues from
    [num_threads] on are dropped with their tasks, and both counters stay as
    they were.  So the size counter stays consistent exactly as far as no
    dropped queue held a task: it does when all of them were empty. *)
Theorem init_keeps_lower_queues q (num_threads : nat) :
  length (queues (TaskQueue.init q num_threads)) = num_threads
  ∧ TaskQueue.size (TaskQueue.init q num_threads) = TaskQueue.size q
  ∧ TaskQueue.quota (TaskQueue.init q num_threads) = TaskQueue.quota q
  ∧ (∀ t : nat,
       TaskQueue.queue_at (TaskQueue.init q num_threads) t
       = if bool_decide (t < num_threads)%nat
         then TaskQueue.queue_at q t else [])
  ∧ ((∀ t : nat, (num_threads ≤ t)%nat → TaskQueue.queue_at q t = []) →
     TaskQueue.total_tasks (TaskQueue.init q num_threads)
     = TaskQueue.total_tasks q
     ∧ (TaskQueue.consistent q →
        TaskQueue.consistent (TaskQueue.init q num_threads))).
Proof.
  split_and!; [apply length_resize | done | done | |].
  - intros t. unfold TaskQueue.queue_at. simpl. case_bool_decide as Ht.
    + destruct (decide (t < length (queues q))%nat) as [Hlt | Hge].
      * by rewrite lookup_resize.
      * rewrite lookup_resize_new by lia.
        by rewrite (lookup_ge_None_2 (queues q)) by lia.
    + by rewrite lookup_resize_old by lia.
  - intros Hempty.
    assert (Htotal : TaskQueue.total_tasks (TaskQueue.init q num_threads)
                     = TaskQueue.total_tasks q).
    { unfold TaskQueue.total_tasks. simpl.
      rewrite resize_spec, concat_app, concat_replicate_nil, app_nil_r.
      rewrite <- (take_drop num_threads (queues q)) at 2.
      by rewrite concat_app, (concat_drop_empty _ _ Hempty), app_nil_r. }
    split; [done |]. unfold TaskQueue.consistent. by rewrite Htotal.
Qed.

(** The sample backlog after [init(1)]: the queue of thread 1 is gone with
    its two tasks, and [size()] still says 2. *)
Example init_drops_upper_queues :
  queues Scenarios.shrunk = [[]]
  ∧ TaskQueue.total_tasks Scenarios.shrunk = O
  ∧ TaskQueue.size Scenarios.shrunk = 2
  ∧ ¬ TaskQueue.consistent Scenarios.shrunk.
Proof. split_and!; [reflexivity.. | by vm_compute]. Qed.

(** *** One consumer draining the queue *)

Lemma rotate_nat_add_mod (t j n : nat) :
  rotate_nat_add t j n = ((t + j) mod n)%nat.
Proof.
  unfold rotate_nat_add.
  by rewrite <- Nat2Z.inj_add, <- Nat2Z.inj_mod, Nat2Z.id.
Qed.

Lemma concat_first_nonempty (r : list (list ptr)) : ∀ (k : nat) state rest,
  (∀ j, (j < k)%nat → r !! j = Some []) →
  r !! k = Some (state :: rest) →
  concat r = state :: concat (<[k := rest]> r).
Proof.
  induction r as [|x r IH]; intros [|k] state rest Hbefore Hhit;
    simplify_eq/=; [done |].
  pose proof (Hbefore O ltac:(lia)) as Hx. simplify_eq/=.
  apply IH; [| done]. intros j Hj. apply (Hbefore (S j)). lia.
Qed.

Lemma concat_rotate_length qs (t : nat) :
  length (concat (rotate t qs)) = length (concat qs).
Proof.
  unfold rotate. rewrite concat_app, length_app, Nat.add_comm.
  rewrite <- length_app, <- concat_app. by rewrite take_drop.
Qed.

(** One pop by a consumer at [thread_num]: it takes the first task in
    round-robin order and leaves the rest in that order. *)
Lemma pop_round_robin_head h q (thread_num : nat) :
  (thread_num < length (queues q))%nat →
  TaskQueue.consistent q →
  (0 < TaskQueue.total_tasks q)%nat →
  TaskQueue.valid h q →
  ∃ state q' src,
    TaskQueue.step h q (TaskQueue.Pop thread_num)
    = Ok (q', TaskQueue.Popped src state)
    ∧ History.round_robin_order q thread_num
      = state :: History.round_robin_order q' thread_num.
Proof.
  intros Hthread Hcons Hpos Hvalid.
  destruct (pop_first_nonempty h q thread_num Hthread Hcons Hpos Hvalid)
    as (k & state & rest & st & Hk & Hbefore & Hhit & Hst & Hpop).
  apply pop_Ok in Hpop as Hinv.
  destruct Hinv as (src & _ & _ & Hsrc & _).
  eexists state, _, src. split.
  { simpl. rewrite Hsrc. simpl. rewrite Hpop. done. }
  unfold History.round_robin_order. simpl.
  rewrite <- rotate_nat_add_mod, rotate_insert_l by done.
  apply concat_first_nonempty.
  - intros j Hj. rewrite lookup_rotate_r, rotate_nat_add_mod by lia.
    by apply Hbefore.
  - by rewrite lookup_rotate_r, rotate_nat_add_mod by lia.
Qed.

Lemma drain_from h (thread_num m : nat) : ∀ q,
  TaskQueue.total_tasks q = m →
  (thread_num < length (queues q))%nat →
  TaskQueue.consistent q →
  TaskQueue.valid h q →
  Z.of_nat (TaskQueue.total_tasks q) < size_t_modulus →
  ∃ q' es,
    TaskQueue.run h q (replicate m (TaskQueue.Pop thread_num)) = Ok (q', es)
    ∧ History.popped es = History.round_robin_order q thread_num
    ∧ TaskQueue.total_tasks q' = O
    ∧ size_ q' = 0.
Proof.
  induction m as [|m IH]; intros q Htotal Hthread Hcons Hvalid Hbound.
  { exists q, []. split_and!; [done | | done |].
    - unfold History.round_robin_order. symmetry. apply nil_length_inv.
      by rewrite concat_rotate_length.
    - unfold TaskQueue.consistent in Hcons. lia. }
  destruct (pop_round_robin_head h q thread_num Hthread Hcons
              ltac:(lia) Hvalid)
    as (state & q1 & src & Hstep & Horder).
  assert (Hsize1 : size_ q1 = wrap64 (Z.of_nat (TaskQueue.total_tasks q1))).
  { eapply step_size; [done |].
    unfold TaskQueue.consistent in Hcons. rewrite Hcons.
    symmetry. apply wrap64_small. lia. }
  assert (Htotal1 : TaskQueue.total_tasks q1 = m).
  { apply step_perm in Hstep. apply Permutation_length in Hstep.
    unfold TaskQueue.total_tasks in *. simpl in Hstep. lia. }
  destruct (step_Ok _ _ _ _ _ Hstep)
    as [(? & ? & ? & ? & _) | (? & ? & ? & _ & Hq & Hqueues & _)]; [done |].
  destruct (IH q1) as (q' & es & Hrun & Hpopped & Hnone & Hzero).
  - done.
  - by rewrite Hqueues, length_insert.
  - unfold TaskQueue.consistent. rewrite Hsize1. apply wrap64_small. lia.
  - by eapply step_valid.
  - lia.
  - exists q', (TaskQueue.Popped src state :: es). split_and!; [| | done..].
    + simpl. simpl in Hstep. rewrite Hstep. simpl. by rewrite Hrun.
    + rewrite history_popped_cons, Hpopped, Horder. done.
Qed.

(** X8: one consumer drains the whole queue.  On a consistent queue, as many
    pops at [thread_num] as there are tasks all return; they return the
    queue of [thread_num] front to back, then the queue of the next thread,
    and so on around; afterwards no task is left, [size()] is zero, and one
    more pop throws the logical error. *)
Theorem drain_in_round_robin_order h q (thread_num : nat) :
  (thread_num < length (queues q))%nat →
  TaskQueue.consistent q →
  TaskQueue.valid h q →
  Z.of_nat (TaskQueue.total_tasks q) < size_t_modulus →
  ∃ q' es,
    TaskQueue.run h q
      (replicate (TaskQueue.total_tasks q) (TaskQueue.Pop thread_num))
    = Ok (q', es)
    ∧ History.popped es = History.round_robin_order q thread_num
    ∧ TaskQueue.total_tasks q' = O
    ∧ TaskQueue.size q' = 0
    ∧ TaskQueue.pop h q' thread_num = Throw TaskQueue.is_empty_error.
Proof.
  intros Hthread Hcons Hvalid Hbound.
  destruct (drain_from h thread_num (TaskQueue.total_tasks q) q eq_refl
              Hthread Hcons Hvalid Hbound)
    as (q' & es & Hrun & Hpopped & Hnone & Hzero).
  exists q', es. split_and!; [done.. |].
  unfold TaskQueue.pop, TaskQueue.getAnyThreadWithTasks.
  by rewrite bool_decide_eq_true_2.
Qed.

Lemma drain_in_round_robin_order_witness :
  (1 < length (queues Scenarios.spread))%nat
  ∧ TaskQueue.consistent Scenarios.spread
  ∧ TaskQueue.valid Scenarios.heap Scenarios.spread
  ∧ Z.of_nat (TaskQueue.total_tasks Scenarios.spread) < size_t_modulus
  ∧ History.round_robin_order Scenarios.spread 1 = [8%N; 9%N; 7%N]
  ∧ ∃ q' es,
      TaskQueue.run Scenarios.heap Scenarios.spread
        (replicate (TaskQueue.total_tasks Scenarios.spread) (TaskQueue.Pop 1))
      = Ok (q', es)
      ∧ History.popped es = History.round_robin_order Scenarios.spread 1
      ∧ TaskQueue.total_tasks q' = O
      ∧ TaskQueue.size q' = 0
      ∧ TaskQueue.pop Scenarios.heap q' 1 = Throw TaskQueue.is_empty_error.
Proof.
  assert (H1 : (1 < length (queues Scenarios.spread))%nat) by (simpl; lia).
  assert (H2 : TaskQueue.consistent Scenarios.spread) by reflexivity.
  assert (H3 : TaskQueue.valid Scenarios.heap Scenarios.spread)
    by (repeat constructor; vm_compute; eauto).
  assert (H4 : Z.of_nat (TaskQueue.total_tasks Scenarios.spread)
               < size_t_modulus) by (vm_compute; reflexivity).
  split_and!; [done.. | vm_compute; reflexivity |].
  apply (drain_in_round_robin_order Scenarios.heap Scenarios.spread 1
           H1 H2 H3 H4).
Defined.

End task_queue_more.

(** ** Growth of the node collection *)

Section growth.

Implicit Types (w : World.t) (n : Node.t) (v : Nodes.t).

(** The storage a new element is appended to holds the old nodes, moved or
    not, with their processor, status and execution state. *)
Lemma storage_keeps_owners v :
  ∃ f : Node.t → Node.t,
    Nodes.data (if bool_decide (Nodes.size v < Nodes.capacity v)%nat
                then v else Nodes.relocate v)
    = f <$> Nodes.data v
    ∧ ∀ n, Node.processor (f n) = Node.processor n
           ∧ Node.status (f n) = Node.status n
           ∧ Node.execution_state (f n) = Node.execution_state n.
Proof.
  case_bool_decide.
  - exists id. by rewrite list_fmap_id.
  - by exists (λ n, (Node.move n).1).
Qed.

(** One [emplace_back] on a collection whose nodes own distinct states. *)
Lemma emplace_back_step w v (p : ptr) (processor_id : Z) v' w' :
  Nodes.emplace_back w v (Some p) processor_id = Done v' w' →
  Growth.owns_distinct_states w v →
  Nodes.size v' = S (Nodes.size v)
  ∧ Growth.owns_distinct_states w' v'
  ∧ World.processors w' = World.processors w
  ∧ World.trace w' = World.trace w ++ [CallHasQuota p]
  ∧ (∀ a st, World.states w !! a = Some st → World.states w' !! a = Some st)
  ∧ (∀ (i : nat) n,
       Nodes.data v !! i = Some n →
       ∃ n',
         Nodes.data v' !! i = Some n'
         ∧ Node.processor n' = Node.processor n
         ∧ Node.status n' = Node.status n
         ∧ Node.execution_state n' = Node.execution_state n)
  ∧ ∃ n a st obj,
      Nodes.data v' !! Nodes.size v = Some n
      ∧ Node.processor n = Some p
      ∧ Node.status n = ExecStatus.Idle
      ∧ Node.directEdges n = [] ∧ Node.backEdges n = []
      ∧ Node.execution_state n = Some a
      ∧ World.states w' !! a = Some st
      ∧ ExecutionState.processor st = Some p
      ∧ ExecutionState.processors_id st = processor_id
      ∧ World.processors w !! p = Some obj
      ∧ ExecutionState.has_quota st = IProcessor.hasQuota obj.
Proof.
  intros Hgrow [Hnodup Halloc].
  apply emplace_back_inv in Hgrow as (new & Hnew & ->).
  pose proof (λ a st, Node_new_states _ _ _ _ _ a st Hnew) as Hstates.
  apply Node_new_inv in Hnew as (p' & obj & [= <-] & Hobj & -> & ->).
  destruct (storage_keeps_owners v) as (f & -> & Hf). simpl.
  pose proof (fresh_state_unused w) as Hfresh.
  set (a := fresh (dom (World.states w))) in *.
  assert (Howners : Node.execution_state <$> (f <$> Nodes.data v)
                    = Node.execution_state <$> Nodes.data v).
  { rewrite <- list_fmap_compose. apply list_fmap_ext.
    intros i n _. simpl. apply Hf. }
  unfold PipelineExecutor.states_allocated in Halloc.
  rewrite Forall_forall in Halloc.
  split_and!.
  - unfold Nodes.size. simpl. rewrite length_app, length_fmap. simpl. lia.
  - split; simpl.
    + rewrite fmap_app, Howners. simpl. apply NoDup_app. split_and!.
      * done.
      * intros x Hx Hx'. apply list_elem_of_singleton in Hx' as ->.
        apply list_elem_of_fmap in Hx as (n & Hn & Hin).
        destruct (Halloc n Hin) as (a' & Ha' & [st Hst]).
        rewrite Ha' in Hn. by simplify_eq.
      * apply NoDup_singleton.
    + unfold PipelineExecutor.states_allocated. apply Forall_app. split.
      * rewrite Forall_fmap, Forall_forall. intros n Hin. simpl.
        destruct (Halloc n Hin) as (a' & Ha' & [st Hst]).
        exists a'. split; [by rewrite (proj2 (proj2 (Hf n))) |].
        exists st. by apply Hstates.
      * constructor; [| done]. exists a. split; [done |]. simpl.
        rewrite lookup_insert_eq. by eexists.
  - done.
  - done.
  - done.
  - intros i n Hi. exists (f n).
    rewrite lookup_app_l by (rewrite length_fmap; by eapply lookup_lt_Some).
    rewrite list_lookup_fmap, Hi. split; [done |]. apply Hf.
  - eexists _, a, _, obj. split.
    { unfold Nodes.size. rewrite lookup_app_r by by rewrite length_fmap.
      by rewrite length_fmap, Nat.sub_diag. }
    simpl. split_and!; [done.. | apply lookup_insert_eq | | | |]; done.
Qed.

(** X9: the node collection grown by any number of [emplace_back] calls.
    Every call appends one node; the nodes that were there keep their index,
    processor, status and execution state, however often they are relocated;
    the execution states that existed are untouched; the node appended for
    the [i]-th pair is [Idle], has no edges, and owns an execution state
    bound to that processor and id with the processor's quota flag; [hasQuota]
    is called once per appended node, in order, and never for a relocated
    one; and no two nodes ever share an execution state. *)
Theorem emplace_back_all_keeps_nodes w v args v' w' :
  Growth.emplace_back_all w v args = Done v' w' →
  Growth.owns_distinct_states w v →
  Nodes.size v' = (Nodes.size v + length args)%nat
  ∧ Growth.owns_distinct_states w' v'
  ∧ World.trace w' = World.trace w ++ ((λ arg, CallHasQuota arg.1) <$> args)
  ∧ (∀ a st, World.states w !! a = Some st → World.states w' !! a = Some st)
  ∧ (∀ (i : nat) n,
       Nodes.data v !! i = Some n →
       ∃ n',
         Nodes.data v' !! i = Some n'
         ∧ Node.processor n' = Node.processor n
         ∧ Node.status n' = Node.status n
         ∧ Node.execution_state n' = Node.execution_state n)
  ∧ ∀ (i : nat) (p : ptr) (processor_id : Z),
      args !! i = Some (p, processor_id) →
      ∃ n a st obj,
        Nodes.data v' !! (Nodes.size v + i)%nat = Some n
        ∧ Node.processor n = Some p
        ∧ Node.status n = ExecStatus.Idle
        ∧ Node.execution_state n = Some a
        ∧ World.states w' !! a = Some st
        ∧ ExecutionState.processor st = Some p
        ∧ ExecutionState.processors_id st = processor_id
        ∧ World.processors w !! p = Some obj
        ∧ ExecutionState.has_quota st = IProcessor.hasQuota obj.
Proof.
  revert w v. induction args as [|[p processor_id] args IH];
    intros w v Hgrow Hown.
  { simplify_eq/=. rewrite app_nil_r, Nat.add_0_r.
    split_and!; [done.. | | done]. intros i n Hi. by exists n. }
  simpl in Hgrow.
  destruct (Nodes.emplace_back w v (Some p) processor_id)
    as [v1 w1| |] eqn:Hone; simpl in Hgrow; [| done..].
  destruct (emplace_back_step _ _ _ _ _ _ Hone Hown)
    as (Hsize1 & Hown1 & Hprocs1 & Htrace1 & Hstates1 & Hold1
        & n0 & a0 & st0 & obj0 & Hn0 & ? & ? & _ & _ & Ha0 & Hst0 & ? & ?
        & Hobj0 & ?).
  destruct (IH _ _ Hgrow Hown1)
    as (Hsize & Hown' & Htrace & Hstates & Hold & Hnew).
  split_and!.
  - rewrite Hsize, Hsize1. simpl. lia.
  - done.
  - rewrite Htrace, Htrace1, <- app_assoc. done.
  - intros a st Ha. by apply Hstates, Hstates1.
  - intros i n Hi.
    destruct (Hold1 i n Hi) as (n1 & Hi1 & Hp1 & Hs1 & He1).
    destruct (Hold i n1 Hi1) as (n' & Hi' & Hp' & Hs' & He').
    exists n'. split_and!; [done | congruence..].
  - intros [|i] q qid Hi; simplify_eq/=.
    + rewrite Nat.add_0_r.
      destruct (Hold _ _ Hn0) as (n' & Hi' & Hp' & Hs' & He').
      exists n', a0, st0, obj0.
      split_and!;
        [done | congruence | congruence | congruence | by apply Hstates
        | done..].
    + destruct (Hnew i q qid Hi)
        as (n' & a & st & obj & Hi' & ? & ? & ? & ? & ? & ? & Hobj & ?).
      exists n', a, st, obj. rewrite Hprocs1 in Hobj.
      replace (Nodes.size v + S i)%nat with (Nodes.size v1 + i)%nat by lia.
      by split_and!.
Qed.

Lemma emplace_back_all_keeps_nodes_witness :
  Growth.owns_distinct_states Scenarios.world Samples.full_graph
  ∧ ∃ v' w',
      Growth.emplace_back_all Scenarios.world Samples.full_graph
        Scenarios.additions = Done v' w'
      ∧ Nodes.size v'
        = (Nodes.size Samples.full_graph + length Scenarios.additions)%nat
      ∧ Growth.owns_distinct_states w' v'
      ∧ World.trace w'
        = World.trace Scenarios.world
          ++ ((λ arg, CallHasQuota arg.1) <$> Scenarios.additions)
      ∧ (∀ a st, World.states Scenarios.world !! a = Some st →
                 World.states w' !! a = Some st)
      ∧ (∀ (i : nat) n,
           Nodes.data Samples.full_graph !! i = Some n →
           ∃ n',
             Nodes.data v' !! i = Some n'
             ∧ Node.processor n' = Node.processor n
             ∧ Node.status n' = Node.status n
             ∧ Node.execution_state n' = Node.execution_state n)
      ∧ ∀ (i : nat) (p : ptr) (processor_id : Z),
          Scenarios.additions !! i = Some (p, processor_id) →
          ∃ n a st obj,
            Nodes.data v' !! (Nodes.size Samples.full_graph + i)%nat = Some n
            ∧ Node.processor n = Some p
            ∧ Node.status n = ExecStatus.Idle
            ∧ Node.execution_state n = Some a
            ∧ World.states w' !! a = Some st
            ∧ ExecutionState.processor st = Some p
            ∧ ExecutionState.processors_id st = processor_id
            ∧ World.processors Scenarios.world !! p = Some obj
            ∧ ExecutionState.has_quota st = IProcessor.hasQuota obj.
Proof.
  assert (H1 : Growth.owns_distinct_states Scenarios.world Samples.full_graph).
  { split.
    - apply NoDup_singleton.
    - repeat constructor. exists 0%N. split; [reflexivity |].
      vm_compute. eauto. }
  split; [done |]. eexists _, _. split; [vm_compute; reflexivity |].
  apply (emplace_back_all_keeps_nodes Scenarios.world Samples.full_graph
           Scenarios.additions _ _ ltac:(vm_compute; reflexivity) H1).
Defined.

End growth.
